(** * The operator algebra of [pycsou.abc.operator]

    A shallow embedding of the class hierarchy, the property (capability)
    introspection, the object store and the algebraic combinators of
    [src/pycsou/abc/operator.py], followed by the properties of the
    specification that were checked against it.

    Conventions.
    - Python classes are the constructors of [PyClass]; their bases and the
      names bound in their bodies are transcribed in [bases] and
      [class_body]; the method resolution order is computed from [bases] by
      C3 linearisation.
    - Python sets of property names are [gset string]; the order in which a
      set is iterated is not fixed by the language, it is a parameter
      ([set_order], [class_order]).
    - Operators are objects of a store ([heap]): a class and an instance
      dictionary.  Combinators are computations in a state-and-exception
      monad [M] over the store.
    - Arrays and real scalars are those of an abstract array module
      ([ArrayModule]); the precision decorator [enforce_precision] only
      changes the dtype of an array and is the identity on the values
      modelled here. *)

From Stdlib Require Import ZArith QArith Lia.
From stdpp Require Import base option list strings gmap.

Open Scope string_scope.
Open Scope Z_scope.
Open Scope list_scope.

(** ** Classes *)

Inductive PyClass :=
  | Property_ | SingledValued | Apply | Differential | Gradient | Adjoint
  | Proximal
  | Map | DiffMap | Func | ProxFunc | DiffFunc | LinOp | LinFunc
  | SquareOp | NormalOp | SelfAdjointOp | UnitOp | ProjOp | OrthProjOp
  | PosDefOp
  | HomothetyOp | IdentityOperator | ExplicitLinFunc.

#[global] Instance PyClass_eq_dec : EqDecision PyClass.
Proof. solve_decision. Defined.

(** The bases of every class statement, in source order
    ([class Property:] has only [object]). *)
Definition bases (c : PyClass) : list PyClass :=
  match c with
  | Property_ => []
  | SingledValued => [Property_]
  | Apply => [Property_]
  | Differential => [Property_]
  | Gradient => [Differential]
  | Adjoint => [Property_]
  | Proximal => [Property_]
  | Map => [Apply]
  | DiffMap => [Map; Differential]
  | Func => [Map; SingledValued]
  | ProxFunc => [Func; Proximal]
  | DiffFunc => [Func; Gradient]
  | LinOp => [DiffMap; Adjoint]
  | LinFunc => [DiffFunc; LinOp]
  | SquareOp => [LinOp]
  | NormalOp => [SquareOp]
  | SelfAdjointOp => [NormalOp]
  | UnitOp => [NormalOp]
  | ProjOp => [SquareOp]
  | OrthProjOp => [ProjOp; SelfAdjointOp]
  | PosDefOp => [SelfAdjointOp]
  (* pycsou.linop.base, see the constructors below *)
  | HomothetyOp => [LinOp]
  | IdentityOperator => [LinOp]
  | ExplicitLinFunc => [LinFunc]
  end.

(** The names bound in the body of every class statement. *)
Definition class_body (c : PyClass) : list string :=
  match c with
  | Property_ =>
      ["_property_list"; "properties"; "has"; "__add__"; "__mul__";
       "__rmul__"; "__pow__"; "__neg__"; "__sub__"; "__truediv__";
       "argscale"; "argshift"]
  | SingledValued => ["single_valued"]
  | Apply => ["__call__"; "apply"; "lipschitz"]
  | Differential => ["diff_lipschitz"; "jacobian"]
  | Gradient => ["jacobian"; "gradient"]
  | Adjoint => ["adjoint"]
  | Proximal => ["prox"; "fenchel_prox"]
  | Map =>
      ["__init__"; "shape"; "dim"; "codim"; "squeeze"; "_squeeze";
       "lipschitz"; "specialize"]
  | DiffMap => ["__init__"; "squeeze"; "diff_lipschitz"]
  | Func => ["__init__"]
  | ProxFunc => ["__init__"; "__add__"; "__mul__"]
  | DiffFunc => ["__init__"]
  | LinOp =>
      ["__init__"; "squeeze"; "jacobian"; "T"; "to_scipy_operator";
       "lipschitz"; "svdvals"; "asarray"; "__array__"; "gram"; "cogram";
       "pinv"; "_pinv"; "dagger"]
  | LinFunc => ["__init__"; "__add__"]
  | SquareOp => ["__init__"]
  | NormalOp => ["eigvals"; "cogram"]
  | SelfAdjointOp => ["adjoint"; "T"; "eigvals"]
  | UnitOp => ["__init__"; "lipschitz"; "pinv"; "dagger"]
  | ProjOp => ["__pow__"]
  | OrthProjOp => ["__init__"; "lipschitz"; "pinv"; "dagger"]
  | PosDefOp => []
  | HomothetyOp => ["__init__"; "apply"; "adjoint"]
  | IdentityOperator => ["__init__"; "apply"; "adjoint"]
  | ExplicitLinFunc => ["__init__"; "apply"; "adjoint"; "gradient"]
  end.

(** *** Method resolution order (C3 linearisation) *)

(** One step of the C3 merge: the first head that occurs in the tail of no
    sequence. *)
Definition in_some_tail (c : PyClass) (seqs : list (list PyClass)) : bool :=
  existsb (fun s => bool_decide (c ∈ tail s)) seqs.

Definition c3_candidate (seqs : list (list PyClass)) : option PyClass :=
  head (omap (fun s => match s with
                       | c :: _ => if in_some_tail c seqs then None else Some c
                       | [] => None
                       end) seqs).

Definition c3_remove (c : PyClass) (seqs : list (list PyClass)) :
    list (list PyClass) :=
  (fun s => match s with
            | d :: r => if bool_decide (d = c) then r else s
            | [] => []
            end) <$> seqs.

Fixpoint c3_merge (fuel : nat) (seqs : list (list PyClass)) :
    list PyClass :=
  match fuel with
  | O => []
  | S fuel =>
      match c3_candidate seqs with
      | Some c => c :: c3_merge fuel (c3_remove c seqs)
      | None => []
      end
  end.

Fixpoint linearize (depth : nat) (c : PyClass) : list PyClass :=
  match depth with
  | O => [c]
  | S depth =>
      c :: c3_merge 32 ((linearize depth <$> bases c) ++ [bases c])
  end.

(** [cls.__mro__] without the trailing [object]. *)
Definition mro (c : PyClass) : list PyClass := linearize 12 c.

Definition issubclass (c d : PyClass) : bool := bool_decide (d ∈ mro c).

(** The class whose body provides attribute [name] for instances of [c]. *)
Definition class_lookup (c : PyClass) (name : string) : option PyClass :=
  head (filter (fun d => name ∈ class_body d) (mro c)).

(** ** Properties of a class *)

Definition _property_list : gset string :=
  {[ "apply"; "_lipschitz"; "jacobian"; "_diff_lipschitz"; "single_valued";
     "gradient"; "prox"; "adjoint" ]}.

(** [set(dir(cls))]: the names bound in the bodies of the classes of the
    MRO.  ([dir] also lists the attributes of [object]; none of them
    belongs to [_property_list].) *)
Definition dir (c : PyClass) : gset string :=
  list_to_set (mro c ≫= class_body).

Definition properties (c : PyClass) : gset string :=
  dir c ∩ _property_list.

(** [set(prop) <= cls.properties()], for a tuple of names. *)
Definition has (c : PyClass) (prop : list string) : bool :=
  bool_decide (list_to_set prop ⊆ properties c).

(** Iterating a [str] yields its characters: [set("ab") = {"a", "b"}]. *)
Fixpoint str_items (s : string) : list string :=
  match s with
  | EmptyString => []
  | String a r => String a EmptyString :: str_items r
  end.

Definition _base_operators : list PyClass :=
  [Map; DiffMap; Func; DiffFunc; ProxFunc; LinOp; LinFunc].

(** ** Collaborators *)

(** The array backend ([numpy] and Python's real numbers), used only
    through the operations below.  [None] stands for the exception the
    operation raises: operands that cannot be broadcast together for
    [np_add] and [np_sub], a 0-d array for [np_last_dim] ([arr.shape[-1]]),
    a zero divisor for [real_div]. *)
Class ArrayModule := {
  NDArray : Type;
  Real : Type;
  np_add : NDArray -> NDArray -> option NDArray;
  np_sub : NDArray -> NDArray -> option NDArray;
  np_scale : Real -> NDArray -> NDArray;
  np_squeeze : NDArray -> NDArray;
  np_last_dim : NDArray -> option Z;
  np_eye : Z -> NDArray;
  np_ravel : NDArray -> NDArray;
  np_dot : NDArray -> NDArray -> NDArray;
  np_mul : NDArray -> NDArray -> option NDArray;
  np_infty : Real;
  real_of_Z : Z -> Real;
  real_add : Real -> Real -> Real;
  real_mul : Real -> Real -> Real;
  real_div : Real -> Real -> option Real
}.

(** The order in which the interpreter iterates a set of strings and the
    frozenset [_base_operators]; it depends on the hash seed of the
    process. *)
Class HashSeed := {
  set_order : gset string -> list string;
  class_order : list PyClass
}.

(** Every element is visited exactly once. *)
Definition seed_ok `{HashSeed} : Prop :=
  (forall s : gset string, set_order s ≡ₚ elements s)
  /\ class_order ≡ₚ _base_operators.

(** ** Values, objects and the store *)

Abbreviation addr := nat (only parsing).

(** A shape is a pair [(codomain size, domain size)]; [None] is Python's
    [None] (an agnostic size). *)
Definition Shape := (option Z * option Z)%type.

Inductive Exception :=
  | NotImplementedError | ValueError | NameError | AttributeError
  | TypeError | IndexError | ZeroDivisionError
  | RecursionError   (* the call depth allowed to [call] is exhausted *)
  | SystemError.     (* a reference to no object, or a method that is
                        outside the model *)

#[global] Instance Exception_eq_dec : EqDecision Exception.
Proof. solve_decision. Defined.

Section Store.
Context `{AM : ArrayModule}.

(** Function objects.  [ClassDef c name] is the function [name] of the body
    of class [c]; [Native] and [NativeProx] are array routines supplied by
    the caller; the others are the closures the combinators create, with
    the variables they capture. *)
Inductive Function :=
  | ClassDef (c : PyClass) (name : string)
  | Native (f : NDArray -> NDArray)
  | NativeProx (f : NDArray -> Real -> NDArray)
    (* Property.__add__ *)
  | composite_method (self other : addr) (prop : string)
    (* Property.__mul__ *)
  | mul_apply (self other : addr)
  | composite_gradient (self other : addr)
  | composite_jacobian (self other : addr)
  | mul_adjoint (self other : addr)
    (* Property.argshift *)
  | argshifted_method (self : addr) (prop : string) (arr : NDArray)
  | argshift_prox (self : addr) (arr : NDArray)
    (* Map.specialize *)
  | specialize_gradient (self : addr)
    (* ProxFunc.__add__, ProxFunc.__mul__ *)
  | add_prox (self other : addr)
  | mul_unit_prox (self other : addr).

Inductive Value :=
  | VNone
  | VBool (b : bool)
  | VReal (r : Real)
  | VArray (a : NDArray)
  | VTuple (s : Shape)
  | VRef (a : addr)                       (* an operator *)
  | VMethod (f : Function) (self : addr). (* types.MethodType(f, self) *)

Record Obj := mkObj { ob_class : PyClass; ob_dict : gmap string Value }.

Abbreviation heap := (list Obj) (only parsing).

(** ** The monad of combinators: store passing with exceptions *)

Inductive Outcome (A : Type) :=
  | Ok (a : A) (h : heap)
  | Raise (e : Exception) (h : heap).
#[global] Arguments Ok {A} a h.
#[global] Arguments Raise {A} e h.

Definition M (A : Type) : Type := heap -> Outcome A.

Definition ret {A} (a : A) : M A := fun h => Ok a h.

Definition bind {A B} (m : M A) (k : A -> M B) : M B :=
  fun h => match m h with
           | Ok a h' => k a h'
           | Raise e h' => Raise e h'
           end.

Definition raise {A} (e : Exception) : M A := fun h => Raise e h.

(** [try: m except e: raise e'] *)
Definition reraise {A} (e e' : Exception) (m : M A) : M A :=
  fun h => match m h with
           | Raise e1 h' => Raise (if bool_decide (e1 = e) then e' else e1) h'
           | r => r
           end.

Definition of_option {A} (e : Exception) (o : option A) : M A :=
  match o with Some a => ret a | None => raise e end.

Definition of_result {A} (r : Exception + A) : M A :=
  match r with inr a => ret a | inl e => raise e end.

End Store.

Abbreviation heap := (list Obj) (only parsing).

Notation "x <- m ;; k" := (bind m (fun x => k))
  (at level 100, m at next level, right associativity).
Notation "m ;;; k" := (bind m (fun _ => k))
  (at level 100, right associativity).

(** Sequencing of results [Exception + A]. *)
Definition and_then {A B} (r : Exception + A) (k : A -> Exception + B) :
    Exception + B :=
  match r with inr a => k a | inl e => inl e end.

Notation "x <~ r ;; k" := (and_then r (fun x => k))
  (at level 100, r at next level, right associativity).

Section Objects.
Context `{AM : ArrayModule}.

Fixpoint for_each {A} (l : list A) (body : A -> M unit) : M unit :=
  match l with
  | [] => ret tt
  | x :: l => body x ;;; for_each l body
  end.

Definition get_obj (a : addr) : M Obj :=
  fun h => match h !! a with
           | Some o => Ok o h
           | None => Raise SystemError h
           end.

(** [type(a)] *)
Definition type_of (a : addr) : M PyClass :=
  o <- get_obj a ;; ret (ob_class o).

(** A new instance of [c], once its constructor has filled its
    dictionary. *)
Definition new (c : PyClass) (dict : gmap string Value) : M addr :=
  fun h => Ok (List.length h) (h ++ [mkObj c dict]).

(** [setattr(a, name, v)] *)
Definition setattr (a : addr) (name : string) (v : Value) : M unit :=
  fun h => match h !! a with
           | Some o =>
               Ok tt (<[a := mkObj (ob_class o) (<[name := v]> (ob_dict o))]> h)
           | None => Raise SystemError h
           end.

(** [getattr(a, name)] for the names used by the combinators: the instance
    dictionary first, then the class; a function found on the class is
    bound to the instance.  [shape] is a property of [Map] (a data
    descriptor, looked up before the dictionary) returning [_shape]. *)
Definition getattr (a : addr) (name : string) : M Value :=
  o <- get_obj a ;;
  if bool_decide (name = "shape") then
    of_option AttributeError (ob_dict o !! "_shape")
  else
    match ob_dict o !! name with
    | Some v => ret v
    | None =>
        match class_lookup (ob_class o) name with
        | Some c => ret (VMethod (ClassDef c name) a)
        | None => raise AttributeError
        end
    end.

Definition get_shape (a : addr) : M Shape :=
  v <- getattr a "shape" ;;
  match v with VTuple s => ret s | _ => raise TypeError end.

(** [isinstance(v, c)] for a value that is an operator or not. *)
Definition isinstance (v : Value) (c : PyClass) : M bool :=
  match v with
  | VRef a => d <- type_of a ;; ret (issubclass d c)
  | _ => ret false
  end.

End Objects.

(** ** Shape inference *)

(** Modelled from the spec: [pycsou.util.infer_sum_shape] is not part of
    the sources at hand.  Codomains must be range-broadcastable ([N == M] or
    one of them is 1) and domains identical unless one is agnostic; the
    output is the larger codomain and the concrete domain size if any.
    [None] is the [ValueError] of the shape error. *)
Definition infer_sum_shape (s1 s2 : Shape) : option Shape :=
  match s1, s2 with
  | (Some n, k), (Some m, l) =>
      if bool_decide (n = m \/ n = 1 \/ m = 1) then
        match k, l with
        | Some k', Some l' =>
            if bool_decide (k' = l') then Some (Some (Z.max n m), k)
            else None
        | Some _, None => Some (Some (Z.max n m), k)
        | None, _ => Some (Some (Z.max n m), l)
        end
      else None
  | _, _ => None
  end.

(** Modelled from the spec: [pycsou.util.infer_composition_shape] is not
    part of the sources at hand.  The domain of the left operand must equal
    the codomain of the right operand unless it is agnostic; the output is
    (codomain of left, domain of right). *)
Definition infer_composition_shape (s1 s2 : Shape) : option Shape :=
  match s1, s2 with
  | (Some n, k), (Some m, l) =>
      if bool_decide (k = None \/ k = Some m) then Some (Some n, l)
      else None
  | _, _ => None
  end.

(** ** Construction, specialisation and squeeze *)

Section Construction.
Context `{AM : ArrayModule} `{HS : HashSeed}.

Fixpoint after (c : PyClass) (l : list PyClass) : list PyClass :=
  match l with
  | [] => []
  | d :: l => if bool_decide (d = c) then l else after c l
  end.

(** The target of [super(c, self).__init__] for an instance of [C]: the
    next class of the MRO of [C] whose body binds [__init__]. *)
Definition super_init (C c : PyClass) : option PyClass :=
  head (filter (fun d => "__init__" ∈ class_body d) (after c (mro C))).

(** The body of [c.__init__(self, shape)] on an instance [self] of class
    [C], for a shape that is a pair.  The constructors only assign
    attributes of [self]: they are run on the instance dictionary of the
    object under construction.  [init_of d] is [d.__init__] on the same
    instance. *)
Definition init_body
    (init_of : PyClass -> Shape -> gmap string Value ->
               Exception + gmap string Value)
    (C c : PyClass) (shape : Shape) (self : gmap string Value) :
    Exception + gmap string Value :=
  let super_init_ (shape : Shape) (self : gmap string Value) :=
    match super_init C c with
    | Some d => init_of d shape self
    | None => inr self                        (* object.__init__ *)
    end in
  match c with
  | Map =>
      match shape.1 with
      | None => inl ValueError
      | Some _ =>
          inr (<["_lipschitz" := VReal np_infty]>
                 (<["_shape" := VTuple shape]> self))
      end
  | DiffMap =>
      self <~ super_init_ shape self ;;
      inr (<["_diff_lipschitz" := VReal np_infty]> self)
  | Func =>
      match shape.1 with
      | None => inl TypeError                 (* None > 1 *)
      | Some n =>
          if bool_decide (n > 1) then inl ValueError
          else super_init_ shape self
      end
  | ProxFunc | DiffFunc => super_init_ shape self
  | LinOp =>
      self <~ super_init_ shape self ;;
      inr (<["_diff_lipschitz" := VReal (real_of_Z 0)]> self)
  | LinFunc =>
      self <~ init_of DiffFunc shape self ;;
      init_of LinOp shape self
  | SquareOp =>
      if bool_decide (shape.1 <> shape.2) then inl ValueError
      else super_init_ (shape.1, shape.1) self
  | UnitOp | OrthProjOp =>
      self <~ super_init_ shape self ;;
      inr (<["_lipschitz" := VReal (real_of_Z 1)]> self)
  | IdentityOperator => super_init_ shape self
  | HomothetyOp | ExplicitLinFunc => inl TypeError
  | _ => super_init_ shape self
  end.

(** [c.__init__(self, shape)]; [depth] bounds the chain of [__init__]
    calls (at most one per class of the MRO). *)
Fixpoint __init__ (depth : nat) (C c : PyClass) (shape : Shape)
    (self : gmap string Value) : Exception + gmap string Value :=
  match depth with
  | O => inl RecursionError
  | S depth => init_body (__init__ depth C) C c shape self
  end.

(** The instance dictionary after [C.__init__(self, shape)]. *)
Definition init (C : PyClass) (shape : Shape) :
    Exception + gmap string Value :=
  match class_lookup C "__init__" with
  | Some c => __init__ 16 C c shape ∅
  | None => inr ∅
  end.

(** [C(shape)] *)
Definition construct (C : PyClass) (shape : Shape) : M addr :=
  self <- of_result (init C shape) ;;
  new C self.

(** [Map.specialize] *)
Definition specialize (self : addr) (cast_to : PyClass) : M addr :=
  c <- type_of self ;;
  if bool_decide (cast_to = c) then ret self
  else
    if bool_decide (properties cast_to ⊂ properties c) then raise ValueError
    else
      shape <- get_shape self ;;
      obj <- construct cast_to shape ;;
      for_each (set_order (properties c)) (fun prop =>
        if bool_decide (prop = "jacobian")
           && has cast_to (str_items "single_valued")
        then setattr obj "gradient" (VMethod (specialize_gradient self) obj)
        else v <- getattr self prop ;; setattr obj prop v) ;;;
      ret obj.

(** [Map._squeeze] *)
Definition _squeeze (self : addr) (out : PyClass) : M addr :=
  shape <- get_shape self ;;
  if bool_decide (shape.1 = Some 1) then specialize self out else ret self.

(** [self.squeeze()]: [Map.squeeze], [DiffMap.squeeze] or [LinOp.squeeze],
    whichever comes first in the MRO of the class of [self]. *)
Definition squeeze (self : addr) : M addr :=
  c <- type_of self ;;
  match class_lookup c "squeeze" with
  | Some LinOp => _squeeze self LinFunc
  | Some DiffMap => _squeeze self DiffFunc
  | Some Map => _squeeze self Func
  | _ => raise AttributeError
  end.

End Construction.

(** ** The algebraic combinators *)

Section Combinators.
Context `{AM : ArrayModule} `{HS : HashSeed}.

(** [for Op in _base_operators: if Op.properties() == shared_props: break].
    When no class matches, the loop leaves [Op] bound to the last class
    visited. *)
Definition resolve_kind (shared_props : gset string) : PyClass :=
  match List.find (fun Op => bool_decide (properties Op = shared_props))
                  class_order with
  | Some Op => Op
  | None => default Map (last class_order)
  end.

(** [if Op in [LinOp, DiffFunc, LinFunc]: shared_props.discard("jacobian")]
    followed by [shared_props.discard("single_valued")]. *)
Definition bound_props (Op : PyClass) (shared_props : gset string) :
    gset string :=
  (if bool_decide (Op ∈ [LinOp; DiffFunc; LinFunc])
   then shared_props ∖ {["jacobian"]} else shared_props)
  ∖ {["single_valued"]}.

(** The value of the loop variable [prop] once a [for prop in ...] loop has
    run to its end.  The functions defined in the body of the loop refer to
    the variable, not to the value it had when they were defined: by the
    time any of them is called the loop is over and all of them read this
    final value. *)
Definition final_prop (order : list string) : string :=
  default "" (last order).

(** [u + v] and [u * v] on the Lipschitz attributes. *)
Definition add_reals (u v : Value) : M Value :=
  match u, v with
  | VReal a, VReal b => ret (VReal (real_add a b))
  | _, _ => raise TypeError
  end.

Definition mul_reals (u v : Value) : M Value :=
  match u, v with
  | VReal a, VReal b => ret (VReal (real_mul a b))
  | _, _ => raise TypeError
  end.

(** [Property.__add__] *)
Definition Property___add__ (self : addr) (other : Value) : M addr :=
  is_map <- isinstance other Map ;;
  match other with
  | VRef other =>
      if negb is_map then raise NotImplementedError
      else
        s1 <- get_shape self ;;
        s2 <- get_shape other ;;
        out_shape <- of_option ValueError (infer_sum_shape s1 s2) ;;
        c1 <- type_of self ;;
        c2 <- type_of other ;;
        let shared_props := (properties c1 ∩ properties c2) ∖ {["prox"]} in
        let Op := resolve_kind shared_props in
        let shared_props := bound_props Op shared_props in
        out_op <- construct Op out_shape ;;
        let order := set_order shared_props in
        for_each order (fun prop =>
          if bool_decide (prop ∈ ["_lispchitz"; "_diff_lipschitz"]) then
            u <- getattr self prop ;;
            v <- getattr other prop ;;
            w <- add_reals u v ;;
            setattr out_op prop w
          else
            setattr out_op prop
              (VMethod (composite_method self other (final_prop order))
                       out_op)) ;;;
        squeeze out_op
  | _ => raise NotImplementedError
  end.

(** [ProxFunc.__add__] *)
Definition ProxFunc___add__ (self : addr) (other : Value) : M addr :=
  f <- Property___add__ self other ;;
  is_linfunc <- isinstance other LinFunc ;;
  f <- match other with
       | VRef other =>
           if is_linfunc then
             f <- specialize f ProxFunc ;;
             setattr f "prox" (VMethod (add_prox self other) f) ;;;
             ret f
           else ret f
       | _ => ret f
       end ;;
  squeeze f.

(** [LinFunc.__add__]: [ProxFunc.__add__(other, self)] *)
Definition LinFunc___add__ (self : addr) (other : Value) : M addr :=
  match other with
  | VRef other => ProxFunc___add__ other (VRef self)
  | _ => raise AttributeError       (* a number has no attribute [shape] *)
  end.

(** [self.__add__(other)] *)
Definition __add__ (self : addr) (other : Value) : M addr :=
  c <- type_of self ;;
  match class_lookup c "__add__" with
  | Some ProxFunc => ProxFunc___add__ self other
  | Some LinFunc => LinFunc___add__ self other
  | Some Property_ => Property___add__ self other
  | _ => raise AttributeError
  end.

(** Modelled from the spec: the class [HomothetyOp] of [pycsou.linop.base]
    is not part of the sources at hand.  [HomothetyOp(cst, dim)] is the
    linear operator of shape [(dim, dim)] that scales its argument by
    [cst]; it multiplies by the composition rule of [Property.__mul__]. *)
Definition new_HomothetyOp (cst : Real) (dim : option Z) : M addr :=
  self <- of_result (__init__ 16 HomothetyOp LinOp (dim, dim) ∅) ;;
  new HomothetyOp (<["_cst" := VReal cst]> self).

(** Modelled from the spec: the class [IdentityOperator] of
    [pycsou.linop.base] is not part of the sources at hand.
    [IdentityOperator(shape)] is the identity operator of that shape. *)
Definition new_IdentityOperator (shape : Shape) : M addr :=
  construct IdentityOperator shape.

(** The operator form of [Property.__mul__]: [other] is an instance of
    [Map]. *)
Definition compose (self other : addr) : M addr :=
  s1 <- get_shape self ;;
  s2 <- get_shape other ;;
  out_shape <- of_option ValueError (infer_composition_shape s1 s2) ;;
  c1 <- type_of self ;;
  c2 <- type_of other ;;
  let shared_props := (properties c1 ∩ properties c2) ∖ {["prox"]} in
  let shared_props :=
    if bool_decide (s1.1 = Some 1) && bool_decide ("jacobian" ∈ shared_props)
    then shared_props ∪ {["gradient"; "single_valued"]}
    else shared_props in
  let Op := resolve_kind shared_props in
  let shared_props := bound_props Op shared_props in
  out_op <- construct Op out_shape ;;
  for_each (set_order shared_props) (fun prop =>
    if bool_decide (prop = "apply") then
      setattr out_op "apply" (VMethod (mul_apply self other) out_op)
    else if bool_decide (prop = "_lipschitz") then
      u <- getattr self "_lipschitz" ;;
      v <- getattr other "_lipschitz" ;;
      w <- mul_reals u v ;;
      setattr out_op "_lipschitz" w
    else if bool_decide (prop = "_diff_lipschitz") then
      if issubclass c1 LinOp then
        u <- getattr self "_lipschitz" ;;
        v <- getattr other "_diff_lipschitz" ;;
        w <- mul_reals u v ;;
        setattr out_op "_diff_lipschitz" w
      else if issubclass c2 LinOp then
        u <- getattr self "_diff_lipschitz" ;;
        v <- getattr other "_lipschitz" ;;
        v2 <- mul_reals v v ;;
        w <- mul_reals u v2 ;;
        setattr out_op "_diff_lipschitz" w
      else setattr out_op "_diff_lipschitz" (VReal np_infty)
    else if bool_decide (prop = "gradient") then
      setattr out_op "gradient" (VMethod (composite_gradient self other) out_op)
    else if bool_decide (prop = "jacobian") then
      setattr out_op "jacobian" (VMethod (composite_jacobian self other) out_op)
    else if bool_decide (prop = "adjoint") then
      setattr out_op "adjoint" (VMethod (mul_adjoint self other) out_op)
    else ret tt) ;;;
  squeeze out_op.

(** [Property.__mul__].  In the scalar form [hmap.__mul__(self)] is
    [Property.__mul__(hmap, self)], whose second argument is an operator. *)
Definition Property___mul__ (self : addr) (other : Value) : M addr :=
  match other with
  | VReal scalar =>
      s <- get_shape self ;;
      hmap <- new_HomothetyOp scalar s.1 ;;
      compose hmap self
  | VRef other =>
      is_map <- isinstance (VRef other) Map ;;
      if negb is_map then raise NotImplementedError
      else compose self other
  | _ => raise NotImplementedError
  end.

(** [ProxFunc.__mul__].  The result of [f.specialize] is dropped.  The
    name [HomothetyOp] of the second test is imported by
    [Property.__mul__] and by [argscale] into their own local scopes only:
    it is not a global of the module, and evaluating the test raises
    [NameError]. *)
Definition ProxFunc___mul__ (self : addr) (other : Value) : M addr :=
  f <- Property___mul__ self other ;;
  is_unit <- isinstance other UnitOp ;;
  match other with
  | VRef other =>
      if is_unit then
        specialize f ProxFunc ;;;
        setattr f "prox" (VMethod (mul_unit_prox self other) f)
      else raise NameError
  | _ => raise NameError
  end ;;;
  squeeze f.

(** [self.__mul__(other)] *)
Definition __mul__ (self : addr) (other : Value) : M addr :=
  c <- type_of self ;;
  match class_lookup c "__mul__" with
  | Some ProxFunc => ProxFunc___mul__ self other
  | Some Property_ => Property___mul__ self other
  | _ => raise AttributeError
  end.

(** [for i in range(1, power): exp_map = self.__mul__(exp_map)], with
    [count] the number of iterations left. *)
Fixpoint pow_loop (count : nat) (self exp_map : addr) : M addr :=
  match count with
  | O => ret exp_map
  | S count =>
      exp_map <- __mul__ self (VRef exp_map) ;;
      pow_loop count self exp_map
  end.

(** [Property.__pow__] for an [int] power. *)
Definition Property___pow__ (self : addr) (power : Z) : M addr :=
  if bool_decide (power = 0) then
    s <- get_shape self ;; new_IdentityOperator s
  else pow_loop (Z.to_nat (power - 1)) self self.

(** [ProjOp.__pow__] *)
Definition ProjOp___pow__ (self : addr) (power : Z) : M addr :=
  if bool_decide (power = 0) then
    s <- get_shape self ;; new_IdentityOperator s
  else ret self.

(** [self ** power] *)
Definition __pow__ (self : addr) (power : Z) : M addr :=
  c <- type_of self ;;
  match class_lookup c "__pow__" with
  | Some ProjOp => ProjOp___pow__ self power
  | Some Property_ => Property___pow__ self power
  | _ => raise AttributeError
  end.

(** [Property.__neg__] *)
Definition __neg__ (self : addr) : M addr :=
  __mul__ self (VReal (real_of_Z (-1))).

(** [Property.__sub__] *)
Definition __sub__ (self other : addr) : M addr :=
  n <- __neg__ other ;; __add__ self (VRef n).

(** [Property.__truediv__] *)
Definition __truediv__ (self : addr) (scalar : Value) : M addr :=
  match scalar with
  | VReal s =>
      q <- of_option ZeroDivisionError (real_div (real_of_Z 1) s) ;;
      __mul__ self (VReal q)
  | _ => raise NotImplementedError
  end.

(** [Property.argscale] *)
Definition argscale (self : addr) (scalar : Value) : M addr :=
  match scalar with
  | VReal s =>
      sh <- get_shape self ;;
      hmap <- new_HomothetyOp s sh.2 ;;
      __mul__ self (VRef hmap)
  | _ => raise NotImplementedError
  end.

(** [Property.argshift].  ([props], computed and pruned after [out_op] is
    built, is not used by the loop, which iterates
    [out_op.properties()].) *)
Definition argshift (self : addr) (arr : Value) : M addr :=
  match arr with
  | VArray arr =>
      let arr := np_squeeze arr in
      s <- get_shape self ;;
      n <- of_option IndexError (np_last_dim arr) ;;
      if bool_decide (s.2 = None \/ s.2 = Some n) then
        let out_shape := (s.1, Some n) in
        c <- type_of self ;;
        let out_class :=
          if issubclass c LinFunc then DiffFunc
          else if issubclass c LinOp then DiffMap
          else c in
        out_op <- construct out_class out_shape ;;
        let order := set_order (properties out_class) in
        for_each order (fun prop =>
          if bool_decide (prop ∈ ["_lispchitz"; "_diff_lipschitz"]) then
            v <- getattr self prop ;; setattr out_op prop v
          else if bool_decide (prop = "prox") then
            setattr out_op "prox" (VMethod (argshift_prox self arr) out_op)
          else
            setattr out_op prop
              (VMethod (argshifted_method self (final_prop order) arr)
                       out_op)) ;;;
        squeeze out_op
      else raise ValueError
  | _ => raise ValueError
  end.

End Combinators.

(** ** Calling the methods of an operator *)

Section Calls.
Context `{AM : ArrayModule} `{HS : HashSeed}.

(** Modelled from the spec: the class [ExplicitLinFunc] of
    [pycsou.linop.base] is not part of the sources at hand.
    [ExplicitLinFunc(vec)] is the linear functional [x ↦ <vec, x>], of
    gradient [vec]. *)
Definition new_ExplicitLinFunc (vec : NDArray) : M addr :=
  n <- of_option IndexError (np_last_dim vec) ;;
  self <- of_result (__init__ 16 ExplicitLinFunc LinFunc (Some 1, Some n) ∅) ;;
  new ExplicitLinFunc (<["_vec" := VArray vec]> self).

(** [u + v], [u - v] and [u * v] on the values the methods handle. *)
Definition binary_add (u v : Value) : M Value :=
  match u, v with
  | VArray a, VArray b => w <- of_option ValueError (np_add a b) ;; ret (VArray w)
  | VReal a, VReal b => ret (VReal (real_add a b))
  | VRef a, _ => r <- __add__ a v ;; ret (VRef r)
  | _, _ => raise TypeError
  end.

Definition binary_sub (u v : Value) : M Value :=
  match u, v with
  | VArray a, VArray b => w <- of_option ValueError (np_sub a b) ;; ret (VArray w)
  | VRef a, VRef b => r <- __sub__ a b ;; ret (VRef r)
  | _, _ => raise TypeError
  end.

Definition binary_mul (u v : Value) : M Value :=
  match u, v with
  | VReal a, VArray b => ret (VArray (np_scale a b))
  | VReal a, VReal b => ret (VReal (real_mul a b))
  | VRef a, _ => r <- __mul__ a v ;; ret (VRef r)
  | _, _ => raise TypeError
  end.

(** [callee(args...)].  [depth] bounds the nesting of calls. *)
Fixpoint call (depth : nat) (callee : Value) (args : list Value) : M Value :=
  match depth with
  | O => raise RecursionError
  | S depth =>
      let invoke (a : addr) (name : string) (args : list Value) : M Value :=
        f <- getattr a name ;; call depth f args in
      match callee with
      | VMethod f self =>
          match f, args with
          | Native g, [VArray x] => ret (VArray (g x))
          | NativeProx g, [VArray x; VReal tau] => ret (VArray (g x tau))
          (* bodies of the classes *)
          | ClassDef Apply "apply", [_] => raise NotImplementedError
          | ClassDef Differential "jacobian", [_] => raise NotImplementedError
          | ClassDef Gradient "gradient", [_] => raise NotImplementedError
          | ClassDef Adjoint "adjoint", [_] => raise NotImplementedError
          | ClassDef Proximal "prox", [_; _] => raise NotImplementedError
          | ClassDef SingledValued "single_valued", [] => ret (VBool true)
          | ClassDef Gradient "jacobian", [arr] =>
              g <- invoke self "gradient" [arr] ;;
              match g with
              | VArray g => r <- new_ExplicitLinFunc g ;; ret (VRef r)
              | _ => raise TypeError
              end
          | ClassDef LinOp "jacobian", [_] => ret (VRef self)
          | ClassDef SelfAdjointOp "adjoint", [arr] => invoke self "apply" [arr]
          | ClassDef LinOp "asarray", [] =>
              s <- get_shape self ;;
              match s.2 with
              | Some n => invoke self "apply" [VArray (np_eye n)]
              | None => raise TypeError
              end
          (* pycsou.linop.base, modelled from the spec *)
          | ClassDef HomothetyOp "apply", [VArray x]
          | ClassDef HomothetyOp "adjoint", [VArray x] =>
              c <- getattr self "_cst" ;; binary_mul c (VArray x)
          | ClassDef IdentityOperator "apply", [VArray x]
          | ClassDef IdentityOperator "adjoint", [VArray x] => ret (VArray x)
          | ClassDef ExplicitLinFunc "apply", [VArray x] =>
              v <- getattr self "_vec" ;;
              match v with
              | VArray v => ret (VArray (np_dot v x))
              | _ => raise TypeError
              end
          | ClassDef ExplicitLinFunc "adjoint", [VArray y] =>
              v <- getattr self "_vec" ;;
              match v with
              | VArray v =>
                  w <- of_option ValueError (np_mul y v) ;; ret (VArray w)
              | _ => raise TypeError
              end
          | ClassDef ExplicitLinFunc "gradient", [VArray x] =>
              getattr self "_vec"
          | ClassDef _ name, _ =>
              if bool_decide (name ∈ ["apply"; "jacobian"; "gradient";
                                      "adjoint"; "prox"; "single_valued"])
              then raise TypeError       (* wrong number of arguments *)
              else raise SystemError
          (* closures of Property.__add__ *)
          | composite_method self' other prop, [arr] =>
              u <- invoke self' prop [arr] ;;
              v <- invoke other prop [arr] ;;
              binary_add u v
          (* closures of Property.__mul__ *)
          | mul_apply self' other, [arr] =>
              y <- invoke other "apply" [arr] ;;
              invoke self' "apply" [y]
          | composite_gradient self' other, [arr] =>
              j <- invoke other "jacobian" [arr] ;;
              y <- invoke other "apply" [arr] ;;
              g <- invoke self' "gradient" [y] ;;
              match j with
              | VRef j => invoke j "adjoint" [g]
              | _ => raise AttributeError
              end
          | composite_jacobian self' other, [arr] =>
              y <- invoke other "apply" [arr] ;;
              j1 <- invoke self' "jacobian" [y] ;;
              j2 <- invoke other "jacobian" [arr] ;;
              binary_mul j1 j2
          | mul_adjoint self' other, [arr] =>
              y <- invoke self' "adjoint" [arr] ;;
              invoke other "adjoint" [y]
          (* closures of Property.argshift *)
          | argshifted_method self' prop arr, [x] =>
              y <- binary_add x (VArray arr) ;;
              invoke self' prop [y]
          | argshift_prox self' arr, [x; tau] =>
              y <- binary_add x (VArray arr) ;;
              p <- invoke self' "prox" [y; tau] ;;
              binary_sub p (VArray arr)
          (* closure of Map.specialize *)
          | specialize_gradient self', [x] =>
              j <- invoke self' "jacobian" [x] ;;
              match j with
              | VRef j =>
                  m <- invoke j "asarray" [] ;;
                  match m with
                  | VArray m => ret (VArray (np_ravel m))
                  | _ => raise AttributeError
                  end
              | _ => raise AttributeError
              end
          (* closures of ProxFunc.__add__ and ProxFunc.__mul__ *)
          | add_prox self' other, [x; tau] =>
              l <- invoke other "asarray" [] ;;
              tl <- binary_mul tau l ;;
              y <- binary_sub x tl ;;
              invoke self' "prox" [y; tau]
          | mul_unit_prox self' other, [arr; tau] =>
              y <- invoke other "apply" [arr] ;;
              p <- invoke self' "prox" [y; tau] ;;
              invoke other "adjoint" [p]
          | _, _ => raise TypeError     (* wrong number or type of arguments *)
          end
      | _ => raise TypeError            (* the object is not callable *)
      end
  end.

(** [a.name(args...)] *)
Definition call_method (depth : nat) (a : addr) (name : string)
    (args : list Value) : M Value :=
  f <- getattr a name ;; call depth f args.

End Calls.

(** ** A concrete array module: exact rational arithmetic *)

Module Exact.

(** Arrays of rank 0, 1 and 2 over the rationals. *)
Inductive Array :=
  | Scalar (x : Q)
  | Vec (l : list Q)
  | Mat (rows : list (list Q)).

(** Reals: the rationals and [+∞]. *)
Inductive ExtQ :=
  | Finite (q : Q)
  | Infty.

Definition pointwise (f : Q -> Q -> Q) (a b : Array) : option Array :=
  match a, b with
  | Scalar x, Scalar y => Some (Scalar (Qred (f x y)))
  | Scalar x, Vec l => Some (Vec ((fun y => Qred (f x y)) <$> l))
  | Vec l, Scalar y => Some (Vec ((fun x => Qred (f x y)) <$> l))
  | Vec l, Vec k =>
      if bool_decide (List.length l = List.length k)
      then Some (Vec (zip_with (fun x y => Qred (f x y)) l k))
      else match l, k with
           | [x], _ => Some (Vec ((fun y => Qred (f x y)) <$> k))
           | _, [y] => Some (Vec ((fun x => Qred (f x y)) <$> l))
           | _, _ => None
           end
  | _, _ => None
  end.

Definition scale (r : ExtQ) (a : Array) : Array :=
  match r with
  | Finite q =>
      match a with
      | Scalar x => Scalar (Qred (q * x))
      | Vec l => Vec ((fun x => Qred (q * x)) <$> l)
      | Mat rows => Mat ((fun row : list Q => (fun x => Qred (q * x)) <$> row) <$> rows)
      end
  | Infty => a
  end.

Definition squeeze_array (a : Array) : Array :=
  match a with
  | Vec [x] => Scalar x
  | Mat [row] => match row with [x] => Scalar x | _ => Vec row end
  | _ => a
  end.

Definition last_dim (a : Array) : option Z :=
  match a with
  | Scalar _ => None
  | Vec l => Some (Z.of_nat (List.length l))
  | Mat rows => Some (Z.of_nat (List.length (default [] (head rows))))
  end.

Definition eye (n : Z) : Array :=
  Mat ((fun i => (fun j => if bool_decide (i = j) then 1%Q else 0%Q)
                 <$> seq 0 (Z.to_nat n)) <$> seq 0 (Z.to_nat n)).

Definition ravel (a : Array) : Array :=
  match a with
  | Scalar x => Vec [x]
  | Vec l => Vec l
  | Mat rows => Vec (concat rows)
  end.

Definition dot (a b : Array) : Array :=
  match a, b with
  | Vec l, Vec k =>
      Scalar (Qred (foldr Qplus 0%Q (zip_with Qmult l k)))
  | _, _ => Scalar 0
  end.

Definition ext_add (a b : ExtQ) : ExtQ :=
  match a, b with
  | Finite x, Finite y => Finite (Qred (x + y))
  | _, _ => Infty
  end.

Definition ext_mul (a b : ExtQ) : ExtQ :=
  match a, b with
  | Finite x, Finite y => Finite (Qred (x * y))
  | _, _ => Infty
  end.

Definition ext_div (a b : ExtQ) : option ExtQ :=
  match a, b with
  | Finite x, Finite y =>
      if Qeq_bool y 0 then None else Some (Finite (Qred (x / y)))
  | Finite _, Infty => Some (Finite 0)
  | Infty, Finite y => if Qeq_bool y 0 then None else Some Infty
  | Infty, Infty => Some Infty
  end.

#[export] Instance arrays : ArrayModule := {|
  NDArray := Array;
  Real := ExtQ;
  np_add := pointwise Qplus;
  np_sub := pointwise Qminus;
  np_mul := pointwise Qmult;
  np_scale := scale;
  np_squeeze := squeeze_array;
  np_last_dim := last_dim;
  np_eye := eye;
  np_ravel := ravel;
  np_dot := dot;
  np_infty := Infty;
  real_of_Z := fun z => Finite (inject_Z z);
  real_add := ext_add;
  real_mul := ext_mul;
  real_div := ext_div
|}.

(** Two iteration orders: the sorted one and its reverse. *)
Definition ascending : HashSeed :=
  {| set_order := elements; class_order := _base_operators |}.

Definition descending : HashSeed :=
  {| set_order := fun s => reverse (elements s);
     class_order := reverse _base_operators |}.

(** An operator of class [c] and shape [shape] whose instance dictionary
    binds the given functions, as [op.name = types.MethodType(f, op)]. *)
Definition operator `{HashSeed} (c : PyClass) (shape : Shape)
    (methods : list (string * Function)) : M addr :=
  op <- construct c shape ;;
  for_each methods (fun m => setattr op m.1 (VMethod m.2 op)) ;;;
  ret op.

End Exact.

(** ** The published closure tables *)

(** Position of a base kind in the rows and columns of the tables. *)
Definition kind_index (c : PyClass) : option nat :=
  match c with
  | Map => Some 0 | DiffMap => Some 1 | Func => Some 2 | DiffFunc => Some 3
  | ProxFunc => Some 4 | LinOp => Some 5 | LinFunc => Some 6
  | _ => None
  end%nat.

Definition table_cell {A} (t : list (list A)) (c1 c2 : PyClass) : option A :=
  i ← kind_index c1; j ← kind_index c2; row ← t !! i; row !! j.

(** The table of the docstring of [Property.__add__]; the blank lower half
    is [None]. *)
Definition sum_table_upper : list (list (option PyClass)) :=
  let blank := @None PyClass in
  [ [Some Map; Some Map; Some Map; Some Map; Some Map; Some Map; Some Map];
    [blank; Some DiffMap; Some Map; Some DiffMap; Some Map; Some DiffMap;
     Some DiffMap];
    [blank; blank; Some Func; Some Func; Some Func; Some Map; Some Func];
    [blank; blank; blank; Some DiffFunc; Some Func; Some DiffMap;
     Some DiffFunc];
    [blank; blank; blank; blank; Some Func; Some Map; Some ProxFunc];
    [blank; blank; blank; blank; blank; Some LinOp; Some LinOp];
    [blank; blank; blank; blank; blank; blank; Some LinFunc] ].

(** "The other half of the table can be filled by symmetry". *)
Definition sum_table (c1 c2 : PyClass) : option PyClass :=
  match table_cell sum_table_upper c1 c2 with
  | Some (Some k) => Some k
  | _ => mjoin (table_cell sum_table_upper c2 c1)
  end.

(** The table of the docstring of [Property.__mul__]: rows are the left
    factor. *)
Definition product_table_rows : list (list PyClass) :=
  [ [Map; Map; Map; Map; Map; Map; Map];
    [Map; DiffMap; Map; DiffMap; Map; DiffMap; DiffMap];
    [Func; Func; Func; Func; Func; Func; Func];
    [Func; DiffFunc; Func; DiffFunc; Func; DiffFunc; DiffFunc];
    [Func; Func; Func; Func; Func; Func; Func];
    [Map; DiffMap; Map; DiffMap; Map; LinOp; LinOp];
    [LinFunc; DiffFunc; Func; DiffFunc; Func; LinFunc; LinFunc] ].

Definition product_table (c1 c2 : PyClass) : option PyClass :=
  table_cell product_table_rows c1 c2.

(** The single-valued counterpart of a kind, to which [squeeze] casts an
    operator of codomain size 1. *)
Definition single_valued_counterpart (c : PyClass) : PyClass :=
  match c with
  | Map => Func
  | DiffMap => DiffFunc
  | LinOp => LinFunc
  | _ => c
  end.

(** ** Observations on the store *)

Section Observations.
Context `{AM : ArrayModule}.

Definition class_at (h : heap) (a : addr) : option PyClass :=
  ob_class <$> h !! a.

Definition shape_at (h : heap) (a : addr) : option Shape :=
  o ← h !! a;
  match ob_dict o !! "_shape" with
  | Some (VTuple s) => Some s
  | _ => None
  end.

(** [a] is an operator of class [c] and shape [s]. *)
Definition is_operator (h : heap) (a : addr) (c : PyClass) (s : Shape) :
    Prop :=
  class_at h a = Some c /\ shape_at h a = Some s.

(** The instance dictionary of [a] binds [name] to [v]. *)
Definition attr_at (h : heap) (a : addr) (name : string) : option Value :=
  o ← h !! a; ob_dict o !! name.

(** The shape of an operand of a base kind: a positive codomain size, which
    is 1 for the single-valued kinds. *)
Definition operand_shape (c : PyClass) (s : Shape) : Prop :=
  exists n, s.1 = Some n /\ 1 <= n /\ (issubclass c Func = true -> n = 1).

(** The result of a computation, without the store. *)
Definition result_of {A} (o : Outcome A) : Exception + A :=
  match o with Ok a _ => inr a | Raise e _ => inl e end.

Definition store_of {A} (o : Outcome A) : heap :=
  match o with Ok _ h => h | Raise _ h => h end.

End Observations.

(** ** The combinators on classes and shapes

    What the combinators compute when an operator is observed through its
    class and its shape only.  These functions follow the control flow of
    the combinators above and are related to them in the lemmas
    [*_sound] below. *)

Section Kinds.
Context `{AM : ArrayModule} `{HS : HashSeed}.

Definition Kind := (PyClass * Shape)%type.

Definition construct_kind (C : PyClass) (s : Shape) : Exception + Kind :=
  _ <~ init C s ;; inr (C, s).

Definition specialize_kind (k : Kind) (cast_to : PyClass) :
    Exception + Kind :=
  if bool_decide (cast_to = k.1) then inr k
  else
    if bool_decide (properties cast_to ⊂ properties k.1) then inl ValueError
    else construct_kind cast_to k.2.

Definition _squeeze_kind (k : Kind) (out : PyClass) : Exception + Kind :=
  if bool_decide (k.2.1 = Some 1) then specialize_kind k out else inr k.

Definition squeeze_kind (k : Kind) : Exception + Kind :=
  match class_lookup k.1 "squeeze" with
  | Some LinOp => _squeeze_kind k LinFunc
  | Some DiffMap => _squeeze_kind k DiffFunc
  | Some Map => _squeeze_kind k Func
  | _ => inl AttributeError
  end.

Definition result_of_option {A} (e : Exception) (o : option A) :
    Exception + A :=
  match o with Some a => inr a | None => inl e end.

Definition Property_add_kind (k1 k2 : Kind) : Exception + Kind :=
  if negb (issubclass k2.1 Map) then inl NotImplementedError
  else
    out_shape <~ result_of_option ValueError (infer_sum_shape k1.2 k2.2) ;;
    let shared_props := (properties k1.1 ∩ properties k2.1) ∖ {["prox"]} in
    out_op <~ construct_kind (resolve_kind shared_props) out_shape ;;
    squeeze_kind out_op.

Definition ProxFunc_add_kind (k1 k2 : Kind) : Exception + Kind :=
  f <~ Property_add_kind k1 k2 ;;
  f <~ (if issubclass k2.1 LinFunc then specialize_kind f ProxFunc
        else inr f) ;;
  squeeze_kind f.

Definition add_kind (k1 k2 : Kind) : Exception + Kind :=
  match class_lookup k1.1 "__add__" with
  | Some ProxFunc => ProxFunc_add_kind k1 k2
  | Some LinFunc => ProxFunc_add_kind k2 k1
  | Some Property_ => Property_add_kind k1 k2
  | _ => inl AttributeError
  end.

Definition compose_kind (k1 k2 : Kind) : Exception + Kind :=
  out_shape <~ result_of_option ValueError
                 (infer_composition_shape k1.2 k2.2) ;;
  let shared_props := (properties k1.1 ∩ properties k2.1) ∖ {["prox"]} in
  let shared_props :=
    if bool_decide (k1.2.1 = Some 1) && bool_decide ("jacobian" ∈ shared_props)
    then shared_props ∪ {["gradient"; "single_valued"]}
    else shared_props in
  out_op <~ construct_kind (resolve_kind shared_props) out_shape ;;
  squeeze_kind out_op.

Definition Property_mul_kind (k1 k2 : Kind) : Exception + Kind :=
  if negb (issubclass k2.1 Map) then inl NotImplementedError
  else compose_kind k1 k2.

Definition ProxFunc_mul_kind (k1 k2 : Kind) : Exception + Kind :=
  f <~ Property_mul_kind k1 k2 ;;
  if issubclass k2.1 UnitOp then
    _ <~ specialize_kind f ProxFunc ;; squeeze_kind f
  else inl NameError.

Definition mul_kind (k1 k2 : Kind) : Exception + Kind :=
  match class_lookup k1.1 "__mul__" with
  | Some ProxFunc => ProxFunc_mul_kind k1 k2
  | Some Property_ => Property_mul_kind k1 k2
  | _ => inl AttributeError
  end.

End Kinds.

(** * Properties *)

(** ** Reasoning about computations *)

Section Logic.
Context `{AM : ArrayModule}.

(** [wp m h Q E]: run from the store [h], [m] returns a value and a store
    satisfying [Q], or raises an exception in a store satisfying [E]. *)
Definition wp {A} (m : M A) (h : heap) (Q : A -> heap -> Prop)
    (E : Exception -> heap -> Prop) : Prop :=
  match m h with
  | Ok a h' => Q a h'
  | Raise e h' => E e h'
  end.

Lemma wp_bind {A B} (m : M A) (k : A -> M B) h Q E :
  wp m h (fun a h' => wp (k a) h' Q E) E -> wp (bind m k) h Q E.
Proof. unfold wp, bind. by destruct (m h). Qed.

Lemma wp_mono {A} (m : M A) h (Q Q' : A -> heap -> Prop)
    (E E' : Exception -> heap -> Prop) :
  wp m h Q E ->
  (forall a h', Q a h' -> Q' a h') -> (forall e h', E e h' -> E' e h') ->
  wp m h Q' E'.
Proof. unfold wp. destruct (m h); auto. Qed.

Lemma wp_ok {A} (m : M A) h a h' (Q : A -> heap -> Prop) E :
  m h = Ok a h' -> wp m h Q E -> Q a h'.
Proof. unfold wp. by intros ->. Qed.

Lemma wp_raised {A} (m : M A) h e h' (Q : A -> heap -> Prop) E :
  m h = Raise e h' -> wp m h Q E -> E e h'.
Proof. unfold wp. by intros ->. Qed.

(** [preserves h0 m Q]: [m] leaves the objects of [h0] as they are, whether
    it returns or raises, and what it returns satisfies [Q]. *)
Definition preserves {A} (h0 : heap) (m : M A) (Q : A -> Prop) : Prop :=
  forall h, h0 `prefix_of` h ->
    wp m h (fun a h' => h0 `prefix_of` h' /\ Q a)
           (fun _ h' => h0 `prefix_of` h').

Lemma preserves_bind {A B} h0 (m : M A) (k : A -> M B) Q R :
  preserves h0 m Q -> (forall a, Q a -> preserves h0 (k a) R) ->
  preserves h0 (bind m k) R.
Proof.
  intros Hm Hk h Hh. apply wp_bind.
  eapply wp_mono; [apply Hm, Hh | | done].
  intros a h' [Hh' Ha]. by apply Hk.
Qed.

Lemma preserves_weaken {A} h0 (m : M A) (Q R : A -> Prop) :
  preserves h0 m Q -> (forall a, Q a -> R a) -> preserves h0 m R.
Proof.
  intros Hm HQR h Hh. eapply wp_mono; [apply Hm, Hh | | done].
  intros a h' [? ?]. auto.
Qed.

Lemma preserves_ret {A} h0 (a : A) (Q : A -> Prop) :
  Q a -> preserves h0 (ret a) Q.
Proof. by intros Ha h Hh. Qed.

Lemma preserves_raise {A} h0 e (Q : A -> Prop) : preserves h0 (raise e) Q.
Proof. by intros h Hh. Qed.

Lemma preserves_of_option {A} h0 e (o : option A) :
  preserves h0 (of_option e o) (fun _ => True).
Proof. destruct o; [by apply preserves_ret | apply preserves_raise]. Qed.

Lemma preserves_of_result {A} h0 (r : Exception + A) :
  preserves h0 (of_result r) (fun _ => True).
Proof. destruct r; [apply preserves_raise | by apply preserves_ret]. Qed.

Lemma preserves_get_obj h0 a : preserves h0 (get_obj a) (fun _ => True).
Proof.
  intros h Hh. unfold wp, get_obj.
  repeat case_match; simplify_eq; auto.
Qed.

Lemma preserves_type_of h0 a : preserves h0 (type_of a) (fun _ => True).
Proof.
  eapply preserves_bind; [apply preserves_get_obj |].
  intros o _. by apply preserves_ret.
Qed.

Lemma preserves_getattr h0 a name :
  preserves h0 (getattr a name) (fun _ => True).
Proof.
  eapply preserves_bind; [apply preserves_get_obj |].
  intros o _. case_bool_decide; [apply preserves_of_option |].
  destruct (ob_dict o !! name); [by apply preserves_ret |].
  destruct (class_lookup _ _); [by apply preserves_ret | apply preserves_raise].
Qed.

Lemma preserves_get_shape h0 a : preserves h0 (get_shape a) (fun _ => True).
Proof.
  eapply preserves_bind; [apply preserves_getattr |].
  intros [] _; first [by apply preserves_ret | apply preserves_raise].
Qed.

Lemma preserves_isinstance h0 v c :
  preserves h0 (isinstance v c) (fun _ => True).
Proof.
  destruct v; try by apply preserves_ret.
  eapply preserves_bind; [apply preserves_type_of |].
  intros d _. by apply preserves_ret.
Qed.

Lemma preserves_new h0 c dict :
  preserves h0 (new c dict) (fun r => (length h0 <= r)%nat).
Proof.
  intros h Hh. unfold wp, new. split; [by apply prefix_app_r |].
  by apply prefix_length.
Qed.

Lemma preserves_setattr h0 a name v :
  (length h0 <= a)%nat -> preserves h0 (setattr a name v) (fun _ => True).
Proof.
  intros Ha h [k ->]. unfold wp, setattr.
  repeat case_match; simplify_eq; [| by apply prefix_app_r].
  split; [| done]. rewrite insert_app_r_alt by done. by apply prefix_app_r.
Qed.

Lemma preserves_for_each {A} h0 (l : list A) (body : A -> M unit) :
  (forall x, preserves h0 (body x) (fun _ => True)) ->
  preserves h0 (for_each l body) (fun _ => True).
Proof.
  intros Hbody. induction l as [| x l IH]; [by apply preserves_ret |].
  eapply preserves_bind; [apply Hbody | auto].
Qed.

End Logic.

(** ** The combinators leave the existing operators as they are *)

Create HintDb frame.

#[global] Hint Resolve preserves_raise preserves_of_option
  preserves_of_result preserves_get_obj preserves_type_of preserves_getattr
  preserves_get_shape preserves_isinstance preserves_setattr : frame.

(** [read lem]: the next statement reads the store. *)
Ltac read :=
  eapply preserves_bind; [solve [eauto with frame] | intros ? _].

Section Frame.
Context `{AM : ArrayModule} `{HS : HashSeed}.

Definition fresh_for (h0 : heap) (r : addr) : Prop := (length h0 <= r)%nat.

Definition fresh_or (h0 : heap) (self r : addr) : Prop :=
  r = self \/ fresh_for h0 r.

Lemma preserves_construct h0 C shape :
  preserves h0 (construct C shape) (fresh_for h0).
Proof. unfold construct. read. apply preserves_new. Qed.

Lemma preserves_specialize h0 self cast_to :
  preserves h0 (specialize self cast_to) (fresh_or h0 self).
Proof.
  unfold specialize. read.
  case_bool_decide; [apply preserves_ret; by left |].
  case_bool_decide; [apply preserves_raise |].
  read. eapply preserves_bind; [apply preserves_construct |].
  intros obj Hobj.
  eapply preserves_bind.
  - apply preserves_for_each. intros prop.
    destruct (_ && _); [by apply preserves_setattr |].
    read. by apply preserves_setattr.
  - intros _ _. apply preserves_ret. by right.
Qed.

Lemma preserves__squeeze h0 self out :
  preserves h0 (_squeeze self out) (fresh_or h0 self).
Proof.
  unfold _squeeze. read.
  case_bool_decide; [apply preserves_specialize |].
  apply preserves_ret. by left.
Qed.

Lemma preserves_squeeze h0 self :
  preserves h0 (squeeze self) (fresh_or h0 self).
Proof.
  unfold squeeze. read.
  repeat case_match; first [apply preserves__squeeze | apply preserves_raise].
Qed.

(** Squeezing a new operator returns a new operator. *)
Lemma preserves_squeeze_fresh h0 self :
  fresh_for h0 self -> preserves h0 (squeeze self) (fresh_for h0).
Proof.
  intros Hself. eapply preserves_weaken; [apply preserves_squeeze |].
  by intros r [-> | ?].
Qed.

Lemma preserves_specialize_fresh h0 self cast_to :
  fresh_for h0 self ->
  preserves h0 (specialize self cast_to) (fresh_for h0).
Proof.
  intros Hself. eapply preserves_weaken; [apply preserves_specialize |].
  by intros r [-> | ?].
Qed.

Lemma preserves_add_reals h0 u v :
  preserves h0 (add_reals u v) (fun _ => True).
Proof. destruct u, v; first [by apply preserves_ret | apply preserves_raise]. Qed.

Lemma preserves_mul_reals h0 u v :
  preserves h0 (mul_reals u v) (fun _ => True).
Proof. destruct u, v; first [by apply preserves_ret | apply preserves_raise]. Qed.

Hint Resolve preserves_add_reals preserves_mul_reals : frame.

Lemma preserves_Property___add__ h0 self other :
  preserves h0 (Property___add__ self other) (fresh_for h0).
Proof.
  unfold Property___add__. read.
  destruct other; try apply preserves_raise.
  destruct (negb _); [apply preserves_raise |].
  do 5 read.
  eapply preserves_bind; [apply preserves_construct |].
  intros out_op Hout.
  eapply preserves_bind.
  - apply preserves_for_each. intros prop.
    case_bool_decide; [| by apply preserves_setattr].
    do 3 read. by apply preserves_setattr.
  - intros _ _. by apply preserves_squeeze_fresh.
Qed.

Lemma preserves_ProxFunc___add__ h0 self other :
  preserves h0 (ProxFunc___add__ self other) (fresh_for h0).
Proof.
  unfold ProxFunc___add__.
  eapply preserves_bind; [apply preserves_Property___add__ |].
  intros f Hf.
  eapply preserves_bind; [apply preserves_isinstance |].
  intros is_linfunc _.
  eapply preserves_bind with (Q := fresh_for h0).
  - destruct other; try by apply preserves_ret.
    destruct is_linfunc; [| by apply preserves_ret].
    eapply preserves_bind; [by apply preserves_specialize_fresh |].
    intros f' Hf'.
    eapply preserves_bind; [by apply preserves_setattr |].
    intros _ _. by apply preserves_ret.
  - intros f' Hf'. by apply preserves_squeeze_fresh.
Qed.

Lemma preserves_LinFunc___add__ h0 self other :
  preserves h0 (LinFunc___add__ self other) (fresh_for h0).
Proof.
  destruct other; try apply preserves_raise.
  apply preserves_ProxFunc___add__.
Qed.

Lemma preserves___add__ h0 self other :
  preserves h0 (__add__ self other) (fresh_for h0).
Proof.
  unfold __add__. read.
  repeat case_match;
    first [apply preserves_raise | apply preserves_ProxFunc___add__
          | apply preserves_LinFunc___add__ | apply preserves_Property___add__].
Qed.

End Frame.

Section FrameProducts.
Context `{AM : ArrayModule} `{HS : HashSeed}.

Hint Resolve preserves_add_reals preserves_mul_reals : frame.

Lemma preserves_new_HomothetyOp h0 cst dim :
  preserves h0 (new_HomothetyOp cst dim) (fresh_for h0).
Proof. unfold new_HomothetyOp. read. apply preserves_new. Qed.

Lemma preserves_new_IdentityOperator h0 shape :
  preserves h0 (new_IdentityOperator shape) (fresh_for h0).
Proof. apply preserves_construct. Qed.

Lemma preserves_compose h0 self other :
  preserves h0 (compose self other) (fresh_for h0).
Proof.
  unfold compose. do 5 read.
  eapply preserves_bind; [apply preserves_construct |].
  intros out_op Hout.
  eapply preserves_bind.
  - apply preserves_for_each. intros prop.
    repeat case_bool_decide; repeat case_match;
      repeat first [by apply preserves_setattr | by apply preserves_ret | read].
  - intros _ _. by apply preserves_squeeze_fresh.
Qed.

Lemma preserves_Property___mul__ h0 self other :
  preserves h0 (Property___mul__ self other) (fresh_for h0).
Proof.
  unfold Property___mul__. destruct other; try apply preserves_raise.
  - read. eapply preserves_bind; [apply preserves_new_HomothetyOp |].
    intros hmap _. apply preserves_compose.
  - read. destruct (negb _); [apply preserves_raise | apply preserves_compose].
Qed.

Lemma preserves_ProxFunc___mul__ h0 self other :
  preserves h0 (ProxFunc___mul__ self other) (fresh_for h0).
Proof.
  unfold ProxFunc___mul__.
  eapply preserves_bind; [apply preserves_Property___mul__ |].
  intros f Hf.
  eapply preserves_bind; [apply preserves_isinstance |].
  intros is_unit _.
  eapply preserves_bind with (Q := fun _ => True).
  - destruct other; try apply preserves_raise.
    destruct is_unit; [| apply preserves_raise].
    eapply preserves_bind; [apply preserves_specialize |].
    intros _ _. by apply preserves_setattr.
  - intros _ _. by apply preserves_squeeze_fresh.
Qed.

Lemma preserves___mul__ h0 self other :
  preserves h0 (__mul__ self other) (fresh_for h0).
Proof.
  unfold __mul__. read.
  repeat case_match;
    first [apply preserves_raise | apply preserves_ProxFunc___mul__
          | apply preserves_Property___mul__].
Qed.

Lemma preserves_pow_loop h0 count self exp_map :
  preserves h0 (pow_loop count self exp_map) (fresh_or h0 exp_map).
Proof.
  revert exp_map. induction count as [| count IH]; intros exp_map; simpl.
  - apply preserves_ret. by left.
  - eapply preserves_bind; [apply preserves___mul__ |].
    intros e He. eapply preserves_weaken; [apply IH |].
    intros r [-> | Hr]; by right.
Qed.

(** One more iteration of the loop gives a new operator. *)
Lemma preserves_pow_loop_S h0 count self exp_map :
  preserves h0 (pow_loop (S count) self exp_map) (fresh_for h0).
Proof.
  simpl. eapply preserves_bind; [apply preserves___mul__ |].
  intros e He. eapply preserves_weaken; [apply preserves_pow_loop |].
  by intros r [-> | Hr].
Qed.

Lemma preserves___neg__ h0 self :
  preserves h0 (__neg__ self) (fresh_for h0).
Proof. apply preserves___mul__. Qed.

Lemma preserves___sub__ h0 self other :
  preserves h0 (__sub__ self other) (fresh_for h0).
Proof.
  unfold __sub__. eapply preserves_bind; [apply preserves___neg__ |].
  intros n _. apply preserves___add__.
Qed.

Lemma preserves___truediv__ h0 self scalar :
  preserves h0 (__truediv__ self scalar) (fresh_for h0).
Proof.
  destruct scalar; try apply preserves_raise; simpl.
  read. apply preserves___mul__.
Qed.

Lemma preserves_argscale h0 self scalar :
  preserves h0 (argscale self scalar) (fresh_for h0).
Proof.
  destruct scalar; try apply preserves_raise; simpl.
  read. eapply preserves_bind; [apply preserves_new_HomothetyOp |].
  intros hmap _. apply preserves___mul__.
Qed.

Lemma preserves_argshift h0 self arr :
  preserves h0 (argshift self arr) (fresh_for h0).
Proof.
  destruct arr; try apply preserves_raise; simpl.
  do 2 read. case_bool_decide; [| apply preserves_raise].
  read. eapply preserves_bind; [apply preserves_construct |].
  intros out_op Hout.
  eapply preserves_bind.
  - apply preserves_for_each. intros prop.
    repeat case_bool_decide;
      repeat first [by apply preserves_setattr | read].
  - intros _ _. by apply preserves_squeeze_fresh.
Qed.

End FrameProducts.

(** ** Classes and shapes of the operators in the store *)

Section Spine.
Context `{AM : ArrayModule}.

Lemma class_at_prefix (h0 h : heap) a c :
  h0 `prefix_of` h -> class_at h0 a = Some c -> class_at h a = Some c.
Proof.
  intros [k ->]. unfold class_at. intros Ha.
  destruct (h0 !! a) as [o |] eqn:Ho; [| done].
  by rewrite (lookup_app_l_Some _ _ _ _ Ho).
Qed.

Lemma shape_at_prefix (h0 h : heap) a s :
  h0 `prefix_of` h -> shape_at h0 a = Some s -> shape_at h a = Some s.
Proof.
  intros [k ->]. unfold shape_at. intros Ha.
  destruct (h0 !! a) as [o |] eqn:Ho; [| done].
  by rewrite (lookup_app_l_Some _ _ _ _ Ho).
Qed.

Lemma is_operator_prefix (h0 h : heap) a c s :
  h0 `prefix_of` h -> is_operator h0 a c s -> is_operator h a c s.
Proof.
  intros Hh [Hc Hs]. split; eauto using class_at_prefix, shape_at_prefix.
Qed.

Lemma type_of_operator (h : heap) a c :
  class_at h a = Some c -> type_of a h = Ok c h.
Proof.
  unfold class_at, type_of, bind, get_obj. by destruct (h !! a); intros [= <-].
Qed.

Lemma get_shape_operator (h : heap) a s :
  shape_at h a = Some s -> get_shape a h = Ok s h.
Proof.
  unfold shape_at, get_shape, getattr, bind, get_obj.
  destruct (h !! a) as [o |]; [simpl | done].
  by destruct (ob_dict o !! "_shape") as [[] |]; intros [= <-].
Qed.

Lemma isinstance_operator (h : heap) a c d :
  class_at h a = Some c ->
  isinstance (VRef a) d h = Ok (issubclass c d) h.
Proof. intros Ha. unfold isinstance, bind. by rewrite (type_of_operator h a c). Qed.

(** Setting an attribute other than [_shape] changes neither the class nor
    the shape of any operator. *)
Lemma setattr_operator (h : heap) a name v c s :
  is_operator h a c s -> name <> "_shape" ->
  exists h', setattr a name v h = Ok tt h'
    /\ length h' = length h
    /\ (forall b, class_at h' b = class_at h b)
    /\ (forall b, shape_at h' b = shape_at h b).
Proof.
  intros [Hc Hs] Hname. unfold setattr, class_at, shape_at in *.
  destruct (h !! a) as [o |] eqn:Ho; [| done].
  eexists. split; [done |]. split; [by rewrite length_insert |].
  assert (a < length h)%nat as Hlt by (by eapply lookup_lt_Some).
  split; intros b; destruct (decide (a = b)) as [<- | Hne].
  - by rewrite list_lookup_insert_eq, Ho.
  - by rewrite list_lookup_insert_ne.
  - rewrite list_lookup_insert_eq, Ho by done. simpl.
    by rewrite lookup_insert_ne.
  - by rewrite list_lookup_insert_ne.
Qed.

(** A new object. *)
Lemma new_operator (h : heap) c dict :
  new c dict h = Ok (length h) (h ++ [mkObj c dict]).
Proof. done. Qed.

Lemma class_at_new (h : heap) o : class_at (h ++ [o]) (length h) = Some (ob_class o).
Proof. unfold class_at. by rewrite list_lookup_middle. Qed.

Lemma shape_at_new (h : heap) o s :
  ob_dict o !! "_shape" = Some (VTuple s) ->
  shape_at (h ++ [o]) (length h) = Some s.
Proof. intros Ho. unfold shape_at. rewrite list_lookup_middle by done. simpl. by rewrite Ho. Qed.

(** The properties of a class are attributes of its instances. *)
Lemma property_lookup c name :
  name ∈ properties c -> is_Some (class_lookup c name).
Proof.
  unfold properties, dir, class_lookup. intros Hname.
  apply elem_of_intersection in Hname as [Hname _].
  apply elem_of_list_to_set, list_elem_of_bind in Hname as (d & Hd & Hmro).
  destruct (filter _ (mro c)) as [| x l] eqn:Hf; [| by eexists].
  assert (d ∈ filter (fun d => name ∈ class_body d) (mro c)) as Hin
    by (by apply list_elem_of_filter).
  rewrite Hf in Hin. by apply elem_of_nil in Hin.
Qed.

Lemma property_not_shape c name : name ∈ properties c -> name <> "shape".
Proof.
  unfold properties. intros Hname ->.
  apply elem_of_intersection in Hname as [_ Hname].
  by vm_compute in Hname.
Qed.

Lemma property_not__shape c name : name ∈ properties c -> name <> "_shape".
Proof.
  unfold properties. intros Hname ->.
  apply elem_of_intersection in Hname as [_ Hname].
  by vm_compute in Hname.
Qed.

Lemma getattr_property (h : heap) a c name :
  class_at h a = Some c -> name ∈ properties c ->
  exists v, getattr a name h = Ok v h.
Proof.
  intros Ha Hname. unfold class_at, getattr, bind, get_obj in *.
  destruct (h !! a) as [o |]; simplify_eq/=.
  rewrite bool_decide_false by eauto using property_not_shape.
  destruct (ob_dict o !! name); [by eexists |].
  destruct (property_lookup _ _ Hname) as [d ->]. by eexists.
Qed.

End Spine.

(** ** Facts on the classes *)

(** Evaluate the closed questions on the class hierarchy. *)
Ltac eval_classes :=
  repeat match goal with
  | |- context [super_init ?C ?c] =>
      let v := eval vm_compute in (super_init C c) in
      change (super_init C c) with v
  | |- context [class_lookup ?C ?c] =>
      let v := eval vm_compute in (class_lookup C c) in
      change (class_lookup C c) with v
  | |- context [issubclass ?C ?c] =>
      let v := eval vm_compute in (issubclass C c) in
      change (issubclass C c) with v
  end.

Section ClassFacts.
Context `{AM : ArrayModule}.

Lemma inr_eq {A B} (x y : B) : @inr A B x = inr y -> x = y.
Proof. congruence. Qed.

Lemma __init___S depth C c shape self :
  __init__ (S depth) C c shape self
  = init_body (__init__ depth C) C c shape self.
Proof. done. Qed.

(** [cls.has("single_valued")] is false for every class: the argument is a
    [str], whose elements are characters. *)
Lemma has_single_valued_str c : has c (str_items "single_valued") = false.
Proof. destruct c; vm_compute; reflexivity. Qed.

(** The Lipschitz attributes are set on the instances: they are not names
    of a class and [properties] never lists them. *)
Lemma lipschitz_not_property c name :
  name ∈ properties c ->
  name ∉ ["_lispchitz"; "_diff_lipschitz"; "_lipschitz"].
Proof.
  intros Hname.
  assert (forallb (fun x => bool_decide
            (x ∉ ["_lispchitz"; "_diff_lipschitz"; "_lipschitz"]))
            (elements (properties c)) = true) as Hall
    by (destruct c; vm_compute; reflexivity).
  apply elem_of_elements, list_elem_of_In in Hname.
  eapply forallb_forall in Hall; [| done].
  by apply bool_decide_eq_true in Hall.
Qed.

End ClassFacts.

(** Run the constructor of a given class on a shape [(Some n, dm)] or
    [(None, dm)]. *)
Ltac run_init :=
  unfold init; eval_classes; cbv beta iota;
  repeat (rewrite __init___S; unfold init_body; eval_classes;
          cbv beta iota zeta; cbn [fst snd and_then]);
  repeat case_bool_decide; cbn [and_then].

Section Constructors.
Context `{AM : ArrayModule}.

(** The constructor of a subclass of [Map] records the shape it is
    given. *)
Lemma init_shape C s dict :
  issubclass C Map = true -> init C s = inr dict ->
  dict !! "_shape" = Some (VTuple s).
Proof.
  intros Hsub.
  destruct C; vm_compute in Hsub; try discriminate Hsub; clear Hsub;
    destruct s as [[n |] dm]; run_init;
    lazymatch goal with
    | |- inl _ = inr _ -> _ => by intros Heq
    | |- _ => intros Heq%inr_eq; subst dict; simplify_eq
    end;
    try (repeat (rewrite lookup_insert_ne by discriminate);
         by rewrite lookup_insert_eq).
Qed.

(** The constructors of the base kinds reject a codomain size greater than 1
    for the single-valued kinds, and nothing else. *)
Lemma init_base_kind K n dm :
  K ∈ _base_operators ->
  init K (Some n, dm)
  = inl ValueError /\ issubclass K Func = true /\ n > 1
  \/ (exists dict, init K (Some n, dm) = inr dict)
     /\ (issubclass K Func = true -> n <= 1).
Proof.
  intros HK. repeat (apply elem_of_cons in HK as [-> | HK]);
    [.. | by apply elem_of_nil in HK];
    run_init; eval_classes;
    first [ left; split; [done | split; [done | lia]]
          | right; split; [by eexists | intros; first [lia | done]] ].
Qed.

End Constructors.

(** ** Iteration orders *)

Section Seed.
Context `{HS : HashSeed}.

Lemma set_order_elem (s : gset string) x :
  seed_ok -> x ∈ set_order s <-> x ∈ s.
Proof. intros [Hs _]. by rewrite (Hs s), elem_of_elements. Qed.

Lemma class_order_elem c : seed_ok -> c ∈ class_order <-> c ∈ _base_operators.
Proof. intros [_ Hc]. by rewrite Hc. Qed.

(** Two base kinds with the same properties are the same kind. *)
Lemma properties_inj c d :
  c ∈ _base_operators -> d ∈ _base_operators ->
  properties c = properties d -> c = d.
Proof.
  intros Hc Hd Heq.
  assert (forallb (fun a => forallb (fun b =>
            implb (bool_decide (properties a = properties b))
                  (bool_decide (a = b))) _base_operators)
          _base_operators = true) as Hall by (vm_compute; reflexivity).
  apply list_elem_of_In in Hc, Hd.
  eapply forallb_forall in Hall; [| exact Hc].
  eapply forallb_forall in Hall; [| exact Hd].
  rewrite bool_decide_eq_true_2 in Hall by done.
  by apply bool_decide_eq_true in Hall.
Qed.

Lemma resolve_kind_base sp : seed_ok -> resolve_kind sp ∈ _base_operators.
Proof.
  intros Hok. unfold resolve_kind.
  destruct (List.find _ class_order) as [Op |] eqn:Hfind.
  - apply find_some in Hfind as [Hin _].
    by apply class_order_elem, list_elem_of_In.
  - destruct (last class_order) as [Op |] eqn:Hlast; simpl.
    + apply class_order_elem; [done |]. by eapply last_Some_elem_of.
    + vm_compute. by left.
Qed.

(** The kind with the given properties is found whatever the order. *)
Lemma resolve_kind_unique sp Op :
  seed_ok -> Op ∈ _base_operators -> properties Op = sp ->
  resolve_kind sp = Op.
Proof.
  intros Hok HOp Hsp. unfold resolve_kind.
  destruct (List.find _ class_order) as [Op' |] eqn:Hfind.
  - apply find_some in Hfind as [Hin Heq].
    apply bool_decide_eq_true in Heq.
    apply properties_inj; [| done | congruence].
    by apply class_order_elem, list_elem_of_In.
  - eapply find_none in Hfind;
      [| by apply list_elem_of_In, class_order_elem].
    by apply bool_decide_eq_false in Hfind.
Qed.

End Seed.

(** ** The combinators and their image on classes and shapes *)

Section Soundness.
Context `{AM : ArrayModule} `{HS : HashSeed}.

(** [m], run from [h], returns an operator of the class and shape [k]
    predicts, or raises the exception [k] predicts; the objects of [h0] are
    left as they are and the result satisfies [P]. *)
Definition sound (h0 : heap) (P : addr -> Prop) (m : M addr)
    (k : Exception + Kind) (h : heap) : Prop :=
  wp m h
    (fun r h' => exists c s, k = inr (c, s) /\ is_operator h' r c s
                 /\ h0 `prefix_of` h' /\ P r)
    (fun e h' => k = inl e /\ h0 `prefix_of` h').

Lemma wp_bind_ok {A B} (m : M A) (k : A -> M B) h a h' Q E :
  m h = Ok a h' -> wp (k a) h' Q E -> wp (bind m k) h Q E.
Proof. intros Hm Hk. apply wp_bind. unfold wp at 1. by rewrite Hm. Qed.

Lemma wp_for_each {A} (I : heap -> Prop) (l : list A) (body : A -> M unit) h :
  I h ->
  (forall x h1, x ∈ l -> I h1 ->
     wp (body x) h1 (fun _ h2 => I h2) (fun _ _ => False)) ->
  wp (for_each l body) h (fun _ h' => I h') (fun _ _ => False).
Proof.
  revert h. induction l as [| x l IH]; intros h Hh Hbody; [done |].
  simpl. apply wp_bind. eapply wp_mono; [apply Hbody; [by left | done] | | done].
  intros [] h1 Hh1. simpl. apply IH; [done |].
  intros y h2 Hy. apply Hbody. by right.
Qed.

(** Setting an attribute of a new operator. *)
Lemma wp_setattr_fresh (h0 h : heap) obj c s name v :
  h0 `prefix_of` h -> fresh_for h0 obj -> is_operator h obj c s ->
  name <> "_shape" ->
  wp (setattr obj name v) h
    (fun _ h' => h0 `prefix_of` h' /\ is_operator h' obj c s)
    (fun _ _ => False).
Proof.
  intros Hh Hobj Hop Hname.
  destruct (setattr_operator h obj name v c s Hop Hname)
    as (h' & Hset & _ & Hclass & Hshape).
  pose proof (preserves_setattr h0 obj name v Hobj h Hh) as Hframe.
  unfold wp in *. rewrite Hset in *. destruct Hframe as [Hframe _].
  split; [done |]. destruct Hop as [Hc Hs].
  split; [by rewrite Hclass | by rewrite Hshape].
Qed.

Lemma construct_sound (h : heap) C s :
  issubclass C Map = true ->
  sound h (fresh_for h) (construct C s) (construct_kind C s) h.
Proof.
  intros HC. unfold sound, wp, construct, construct_kind, bind, of_result.
  destruct (init C s) as [e | dict] eqn:Hinit; simpl; [done |].
  exists C, s. split; [done |]. split; [| split].
  - split; [apply class_at_new | apply shape_at_new].
    simpl. by eapply init_shape.
  - by apply prefix_app_r.
  - unfold fresh_for. lia.
Qed.

Lemma sound_weaken (h0 h1 h : heap) (P P' : addr -> Prop) m k :
  h0 `prefix_of` h1 -> (forall r, P r -> P' r) ->
  sound h1 P m k h -> sound h0 P' m k h.
Proof.
  intros Hh HP Hm. eapply wp_mono; [exact Hm | |].
  - intros r h' (c & s & ? & [? ?] & ? & ?). exists c, s.
    split; [done |]. split; [done |]. split; [by etrans | auto].
  - intros e h' [? ?]. split; [done | by etrans].
Qed.

End Soundness.

Section SoundSqueeze.
Context `{AM : ArrayModule} `{HS : HashSeed}.

Lemma specialize_sound (h : heap) self c s K :
  seed_ok -> is_operator h self c s -> issubclass K Map = true ->
  sound h (fresh_or h self) (specialize self K) (specialize_kind (c, s) K) h.
Proof.
  intros Hok [Hc Hs] HK. unfold sound, specialize, specialize_kind.
  cbn [fst snd].
  eapply wp_bind_ok; [by apply type_of_operator |].
  case_bool_decide.
  { unfold wp, ret. exists c, s. repeat split; try done. by left. }
  case_bool_decide.
  { by unfold wp, raise. }
  eapply wp_bind_ok; [by apply get_shape_operator |].
  apply wp_bind. eapply wp_mono; [exact (construct_sound h K s HK) | |].
  - intros obj h1 (c' & s' & Hk & Hop & Hpre & Hfresh).
    apply wp_bind.
    eapply wp_mono;
      [apply wp_for_each
         with (I := fun h2 => h `prefix_of` h2 /\ is_operator h2 obj c' s') | |].
    + done.
    + intros prop h2 Hprop [Hpre2 Hop2].
      apply set_order_elem in Hprop; [| done].
      rewrite has_single_valued_str, andb_false_r.
      destruct (getattr_property h2 self c prop) as [v Hv];
        [by eapply class_at_prefix | done |].
      eapply wp_bind_ok; [exact Hv |].
      apply wp_setattr_fresh; eauto using property_not__shape.
    + intros [] h2 [Hpre2 Hop2]. unfold wp, ret. exists c', s'.
      repeat split; try done; [apply Hop2 .. | by right].
    + by intros e h2 [].
  - by intros e h1 [Hk Hpre].
Qed.

Lemma _squeeze_sound (h : heap) self c s out :
  seed_ok -> is_operator h self c s -> issubclass out Map = true ->
  sound h (fresh_or h self) (_squeeze self out) (_squeeze_kind (c, s) out) h.
Proof.
  intros Hok Hop Hout. unfold sound, _squeeze, _squeeze_kind. cbn [fst snd].
  eapply wp_bind_ok; [apply get_shape_operator, Hop |].
  case_bool_decide; [by apply specialize_sound |].
  unfold wp, ret. exists c, s. destruct Hop. repeat split; try done. by left.
Qed.

Lemma squeeze_sound (h : heap) self c s :
  seed_ok -> is_operator h self c s ->
  sound h (fresh_or h self) (squeeze self) (squeeze_kind (c, s)) h.
Proof.
  intros Hok Hop. unfold sound, squeeze, squeeze_kind. cbn [fst snd].
  eapply wp_bind_ok; [apply type_of_operator, Hop |].
  destruct (class_lookup c "squeeze") as [[] |];
    first [by apply _squeeze_sound | by unfold wp, raise].
Qed.

End SoundSqueeze.

Section SoundSum.
Context `{AM : ArrayModule} `{HS : HashSeed}.

Lemma base_issubclass_Map c :
  c ∈ _base_operators -> issubclass c Map = true.
Proof.
  intros Hc. repeat (apply elem_of_cons in Hc as [-> | Hc]);
    [vm_compute; reflexivity .. | by apply elem_of_nil in Hc].
Qed.

(** The names a loop of [+] or [*] binds on the new operator. *)
Definition bindable (prop : string) : Prop :=
  (prop ∉ ["_lispchitz"; "_diff_lipschitz"; "_lipschitz"])
  /\ prop <> "_shape".

Lemma bindable_property c prop : prop ∈ properties c -> bindable prop.
Proof.
  split; [by eapply lipschitz_not_property | by eapply property_not__shape].
Qed.

Lemma bound_props_subseteq Op sp : bound_props Op sp ⊆ sp.
Proof.
  unfold bound_props. intros x Hx.
  apply elem_of_difference in Hx as [Hx _].
  case_bool_decide; [by apply elem_of_difference in Hx as [Hx _] | done].
Qed.

Lemma shared_props_bindable Op c1 c2 prop :
  prop ∈ bound_props Op ((properties c1 ∩ properties c2) ∖ {["prox"]}) ->
  bindable prop.
Proof.
  intros Hprop%bound_props_subseteq. apply (bindable_property c1).
  apply elem_of_difference in Hprop as [Hprop _].
  by apply elem_of_intersection in Hprop as [Hprop _].
Qed.

(** The result of squeezing a new operator is a new operator. *)
Lemma squeeze_sound_fresh (h0 h : heap) self c s :
  seed_ok -> h0 `prefix_of` h -> fresh_for h0 self ->
  is_operator h self c s ->
  sound h0 (fresh_for h0) (squeeze self) (squeeze_kind (c, s)) h.
Proof.
  intros Hok Hpre Hself Hop.
  eapply sound_weaken; [exact Hpre | | by apply squeeze_sound].
  intros r [-> | Hr]; [done |].
  unfold fresh_for in *. apply prefix_length in Hpre. lia.
Qed.

Lemma specialize_sound_fresh (h0 h : heap) self c s K :
  seed_ok -> h0 `prefix_of` h -> fresh_for h0 self ->
  is_operator h self c s -> issubclass K Map = true ->
  sound h0 (fresh_for h0) (specialize self K) (specialize_kind (c, s) K) h.
Proof.
  intros Hok Hpre Hself Hop HK.
  eapply sound_weaken; [exact Hpre | | by apply specialize_sound].
  intros r [-> | Hr]; [done |].
  unfold fresh_for in *. apply prefix_length in Hpre. lia.
Qed.

Lemma Property_add_sound (h : heap) a b c1 s1 c2 s2 :
  seed_ok -> is_operator h a c1 s1 -> is_operator h b c2 s2 ->
  sound h (fresh_for h) (Property___add__ a (VRef b))
    (Property_add_kind (c1, s1) (c2, s2)) h.
Proof.
  intros Hok [Hc1 Hs1] [Hc2 Hs2].
  unfold sound, Property___add__, Property_add_kind. cbn [fst snd].
  eapply wp_bind_ok; [by apply isinstance_operator |].
  destruct (negb (issubclass c2 Map)); [by unfold wp, raise |].
  eapply wp_bind_ok; [by apply get_shape_operator |].
  eapply wp_bind_ok; [by apply get_shape_operator |].
  destruct (infer_sum_shape s1 s2) as [out_shape |];
    cbn [of_option result_of_option and_then]; [| by unfold wp, bind, raise].
  eapply wp_bind_ok; [done |].
  eapply wp_bind_ok; [by apply type_of_operator |].
  eapply wp_bind_ok; [by apply type_of_operator |].
  set (sp := (properties c1 ∩ properties c2) ∖ {["prox"]}).
  set (Op := resolve_kind sp).
  assert (issubclass Op Map = true) as HOp
    by (by apply base_issubclass_Map, resolve_kind_base).
  apply wp_bind. eapply wp_mono; [exact (construct_sound h Op out_shape HOp) | |].
  - intros out_op h1 (c' & s' & -> & Hop & Hpre & Hfresh).
    cbn [and_then]. apply wp_bind.
    eapply wp_mono;
      [apply wp_for_each
         with (I := fun h2 => h `prefix_of` h2
                              /\ is_operator h2 out_op c' s') | |].
    + done.
    + intros prop h2 Hprop [Hpre2 Hop2].
      apply set_order_elem in Hprop; [| done].
      apply shared_props_bindable in Hprop as [Hlip Hshape].
      rewrite bool_decide_false
        by (intros Hin; apply Hlip;
            repeat (apply elem_of_cons in Hin as [-> | Hin]);
            [by left | by right; left | by apply elem_of_nil in Hin]).
      by apply wp_setattr_fresh.
    + intros [] h2 [Hpre2 Hop2]. by apply squeeze_sound_fresh.
    + by intros e h2 [].
  - intros e h1 [-> Hpre]. by cbn [and_then].
Qed.

End SoundSum.

Section SoundProduct.
Context `{AM : ArrayModule} `{HS : HashSeed}.

Lemma ProxFunc_add_sound (h : heap) a b c1 s1 c2 s2 :
  seed_ok -> is_operator h a c1 s1 -> is_operator h b c2 s2 ->
  sound h (fresh_for h) (ProxFunc___add__ a (VRef b))
    (ProxFunc_add_kind (c1, s1) (c2, s2)) h.
Proof.
  intros Hok Ha Hb. unfold sound, ProxFunc___add__, ProxFunc_add_kind.
  cbn [fst snd].
  apply wp_bind. eapply wp_mono; [exact (Property_add_sound h a b _ _ _ _ Hok Ha Hb) | |].
  - intros f h1 (cf & sf & -> & Hf & Hpre & Hfresh). cbn [and_then].
    eapply wp_bind_ok;
      [apply isinstance_operator; eapply class_at_prefix; [done | apply Hb] |].
    apply wp_bind. destruct (issubclass c2 LinFunc).
    + apply wp_bind.
      eapply wp_mono;
        [apply (specialize_sound_fresh h h1 f cf sf ProxFunc);
           [done | done | done | done | vm_compute; reflexivity] | |].
      * intros f' h2 (c' & s' & -> & Hf' & Hpre2 & Hfresh2). cbn [and_then].
        apply wp_bind.
        eapply wp_mono;
          [apply (wp_setattr_fresh h h2 f' c' s'); [done .. | discriminate] | |].
        -- intros [] h3 [Hpre3 Hf3]. unfold ret at 1, wp at 1.
           by apply squeeze_sound_fresh.
        -- by intros e h3 [].
      * intros e h2 [-> Hpre2]. by cbn [and_then].
    + unfold ret at 1, wp at 1. by apply squeeze_sound_fresh.
  - intros e h1 [-> Hpre]. by cbn [and_then].
Qed.

Lemma add_sound (h : heap) a b c1 s1 c2 s2 :
  seed_ok -> is_operator h a c1 s1 -> is_operator h b c2 s2 ->
  sound h (fresh_for h) (__add__ a (VRef b)) (add_kind (c1, s1) (c2, s2)) h.
Proof.
  intros Hok Ha Hb. unfold sound, __add__, add_kind. cbn [fst snd].
  eapply wp_bind_ok; [apply type_of_operator, Ha |].
  destruct (class_lookup c1 "__add__") as [[] |];
    first [ by unfold wp, raise
          | by apply ProxFunc_add_sound
          | by apply Property_add_sound ].
Qed.

Lemma lifted_props_bindable Op c1 c2 (lift : bool) prop :
  prop ∈ bound_props Op
           (if lift
            then (properties c1 ∩ properties c2) ∖ {["prox"]}
                 ∪ {["gradient"; "single_valued"]}
            else (properties c1 ∩ properties c2) ∖ {["prox"]}) ->
  bindable prop.
Proof.
  intros Hprop%bound_props_subseteq. destruct lift.
  - apply elem_of_union in Hprop as [Hprop | Hprop].
    + apply (bindable_property c1).
      apply elem_of_difference in Hprop as [Hprop _].
      by apply elem_of_intersection in Hprop as [Hprop _].
    + apply elem_of_union in Hprop as [Hprop | Hprop];
        apply elem_of_singleton in Hprop as ->;
        (split; [| discriminate]); intros Hin;
        repeat (apply elem_of_cons in Hin as [Hin | Hin]; [discriminate Hin |]);
        by apply elem_of_nil in Hin.
  - apply (bindable_property c1).
    apply elem_of_difference in Hprop as [Hprop _].
    by apply elem_of_intersection in Hprop as [Hprop _].
Qed.

Lemma compose_sound (h : heap) a b c1 s1 c2 s2 :
  seed_ok -> is_operator h a c1 s1 -> is_operator h b c2 s2 ->
  sound h (fresh_for h) (compose a b) (compose_kind (c1, s1) (c2, s2)) h.
Proof.
  intros Hok [Hc1 Hs1] [Hc2 Hs2].
  unfold sound, compose, compose_kind. cbn [fst snd].
  eapply wp_bind_ok; [by apply get_shape_operator |].
  eapply wp_bind_ok; [by apply get_shape_operator |].
  destruct (infer_composition_shape s1 s2) as [out_shape |];
    cbn [of_option result_of_option and_then]; [| by unfold wp, bind, raise].
  eapply wp_bind_ok; [done |].
  eapply wp_bind_ok; [by apply type_of_operator |].
  eapply wp_bind_ok; [by apply type_of_operator |].
  set (sp := (properties c1 ∩ properties c2) ∖ {["prox"]}).
  set (lift := bool_decide (s1.1 = Some 1) && bool_decide ("jacobian" ∈ sp)).
  set (sp' := if lift then sp ∪ {["gradient"; "single_valued"]} else sp).
  set (Op := resolve_kind sp').
  assert (issubclass Op Map = true) as HOp
    by (by apply base_issubclass_Map, resolve_kind_base).
  apply wp_bind. eapply wp_mono; [exact (construct_sound h Op out_shape HOp) | |].
  - intros out_op h1 (c' & s' & -> & Hop & Hpre & Hfresh).
    cbn [and_then]. apply wp_bind.
    eapply wp_mono;
      [apply wp_for_each
         with (I := fun h2 => h `prefix_of` h2
                              /\ is_operator h2 out_op c' s') | |].
    + done.
    + intros prop h2 Hprop [Hpre2 Hop2].
      apply set_order_elem in Hprop; [| done].
      apply lifted_props_bindable in Hprop as [Hlip Hshape].
      repeat case_bool_decide; subst;
        first [ by (exfalso; apply Hlip; right; right; left)
              | by (exfalso; apply Hlip; right; left)
              | by (apply wp_setattr_fresh; [done .. | discriminate])
              | by unfold wp, ret ].
    + intros [] h2 [Hpre2 Hop2]. by apply squeeze_sound_fresh.
    + by intros e h2 [].
  - intros e h1 [-> Hpre]. by cbn [and_then].
Qed.

Lemma Property_mul_sound (h : heap) a b c1 s1 c2 s2 :
  seed_ok -> is_operator h a c1 s1 -> is_operator h b c2 s2 ->
  sound h (fresh_for h) (Property___mul__ a (VRef b))
    (Property_mul_kind (c1, s1) (c2, s2)) h.
Proof.
  intros Hok Ha Hb. unfold sound, Property___mul__, Property_mul_kind.
  cbn [fst snd].
  eapply wp_bind_ok; [apply isinstance_operator, Hb |].
  destruct (negb (issubclass c2 Map));
    [by unfold wp, raise | by apply compose_sound].
Qed.

Lemma ProxFunc_mul_sound (h : heap) a b c1 s1 c2 s2 :
  seed_ok -> is_operator h a c1 s1 -> is_operator h b c2 s2 ->
  sound h (fresh_for h) (ProxFunc___mul__ a (VRef b))
    (ProxFunc_mul_kind (c1, s1) (c2, s2)) h.
Proof.
  intros Hok Ha Hb. unfold sound, ProxFunc___mul__, ProxFunc_mul_kind.
  cbn [fst snd].
  apply wp_bind. eapply wp_mono; [exact (Property_mul_sound h a b _ _ _ _ Hok Ha Hb) | |].
  - intros f h1 (cf & sf & -> & Hf & Hpre & Hfresh). cbn [and_then].
    eapply wp_bind_ok;
      [apply isinstance_operator; eapply class_at_prefix; [done | apply Hb] |].
    apply wp_bind. destruct (issubclass c2 UnitOp); [| by unfold wp, raise].
    apply wp_bind.
    eapply wp_mono;
      [apply (specialize_sound h1 f cf sf ProxFunc);
         [done | done | vm_compute; reflexivity] | |].
    + intros f' h2 (c' & s' & -> & Hf' & Hpre2 & Hfresh2). cbn [and_then].
      assert (h `prefix_of` h2) as Hpre' by (by etrans).
      eapply wp_mono;
        [apply (wp_setattr_fresh h h2 f cf sf);
           [done | done | exact (is_operator_prefix h1 h2 f cf sf Hpre2 Hf)
           | discriminate] | |].
      * intros [] h3 [Hpre3 Hf3]. by apply squeeze_sound_fresh.
      * by intros e h3 [].
    + intros e h2 [-> Hpre2]. split; [done | by etrans].
  - intros e h1 [-> Hpre]. by cbn [and_then].
Qed.

Lemma mul_sound (h : heap) a b c1 s1 c2 s2 :
  seed_ok -> is_operator h a c1 s1 -> is_operator h b c2 s2 ->
  sound h (fresh_for h) (__mul__ a (VRef b)) (mul_kind (c1, s1) (c2, s2)) h.
Proof.
  intros Hok Ha Hb. unfold sound, __mul__, mul_kind. cbn [fst snd].
  eapply wp_bind_ok; [apply type_of_operator, Ha |].
  destruct (class_lookup c1 "__mul__") as [[] |];
    first [ by unfold wp, raise
          | by apply ProxFunc_mul_sound
          | by apply Property_mul_sound ].
Qed.

End SoundProduct.

(** ** The properties of the base kinds *)

Lemma properties_Map : properties Map = {["apply"]}.
Proof. apply (bool_decide_unpack _); vm_compute; reflexivity. Qed.
Lemma properties_DiffMap : properties DiffMap = {["apply"; "jacobian"]}.
Proof. apply (bool_decide_unpack _); vm_compute; reflexivity. Qed.
Lemma properties_Func : properties Func = {["apply"; "single_valued"]}.
Proof. apply (bool_decide_unpack _); vm_compute; reflexivity. Qed.
Lemma properties_DiffFunc :
  properties DiffFunc = {["apply"; "single_valued"; "jacobian"; "gradient"]}.
Proof. apply (bool_decide_unpack _); vm_compute; reflexivity. Qed.
Lemma properties_ProxFunc :
  properties ProxFunc = {["apply"; "single_valued"; "prox"]}.
Proof. apply (bool_decide_unpack _); vm_compute; reflexivity. Qed.
Lemma properties_LinOp : properties LinOp = {["apply"; "jacobian"; "adjoint"]}.
Proof. apply (bool_decide_unpack _); vm_compute; reflexivity. Qed.
Lemma properties_LinFunc :
  properties LinFunc
  = {["apply"; "single_valued"; "jacobian"; "gradient"; "adjoint"]}.
Proof. apply (bool_decide_unpack _); vm_compute; reflexivity. Qed.

(** Replace the properties of the base kinds by their values. *)
Ltac base_properties :=
  rewrite ?properties_Map, ?properties_DiffMap, ?properties_Func,
    ?properties_DiffFunc, ?properties_ProxFunc, ?properties_LinOp,
    ?properties_LinFunc.

(** ** The classes of sums and products *)

(** The class [squeeze] returns on a base kind, [single] telling whether the
    codomain size is 1. *)
Definition squeeze_class (c : PyClass) (single : bool) :
    Exception + PyClass :=
  if single then
    match c with
    | DiffFunc | ProxFunc => inl ValueError
    | _ => inr (single_valued_counterpart c)
    end
  else inr c.

(** The class [specialize] returns when a base kind is cast to
    [ProxFunc]. *)
Definition specialize_ProxFunc_class (c : PyClass) (single : bool) :
    Exception + PyClass :=
  if bool_decide (c = ProxFunc) then inr c
  else if single then inr ProxFunc else inl ValueError.

(** The kind whose properties are those the operands of a sum share. *)
Definition sum_resolved (c1 c2 : PyClass) : PyClass :=
  match sum_table c1 c2 with
  | Some ProxFunc => Func
  | Some k => k
  | None => Map
  end.

(** The kind found after [single_valued] and [gradient] have been added to
    the shared properties of a composition of codomain size 1. *)
Definition lift_class (c : PyClass) (single : bool) : PyClass :=
  if single then
    match c with
    | DiffMap => DiffFunc
    | LinOp => LinFunc
    | _ => c
    end
  else c.

Definition Property_add_class (c1 c2 : PyClass) (single : bool) :
    Exception + PyClass :=
  squeeze_class (sum_resolved c1 c2) single.

Definition ProxFunc_add_class (c1 c2 : PyClass) (single : bool) :
    Exception + PyClass :=
  f <~ Property_add_class c1 c2 single ;;
  f <~ (if issubclass c2 LinFunc then specialize_ProxFunc_class f single
        else inr f) ;;
  squeeze_class f single.

Definition add_class (c1 c2 : PyClass) (single : bool) :
    Exception + PyClass :=
  match class_lookup c1 "__add__" with
  | Some ProxFunc => ProxFunc_add_class c1 c2 single
  | Some LinFunc => ProxFunc_add_class c2 c1 single
  | Some Property_ => Property_add_class c1 c2 single
  | _ => inl AttributeError
  end.

Definition compose_class (c1 c2 : PyClass) (single : bool) :
    Exception + PyClass :=
  squeeze_class (lift_class (sum_resolved c1 c2) single) single.

Definition mul_class (c1 c2 : PyClass) (single : bool) :
    Exception + PyClass :=
  match class_lookup c1 "__mul__" with
  | Some ProxFunc => _ <~ compose_class c1 c2 single ;; inl NameError
  | Some Property_ => compose_class c1 c2 single
  | _ => inl AttributeError
  end.

(** Case analysis on a base kind. *)
Ltac base_cases H :=
  repeat (apply elem_of_cons in H as [-> | H]);
  [.. | apply elem_of_nil in H; destruct H].

Section BaseKinds.
Context `{AM : ArrayModule} `{HS : HashSeed}.

Lemma construct_kind_base K n dm :
  K ∈ _base_operators ->
  construct_kind K (Some n, dm)
  = if issubclass K Func && bool_decide (n > 1) then inl ValueError
    else inr (K, (Some n, dm)).
Proof.
  intros HK. unfold construct_kind.
  destruct (init_base_kind K n dm HK) as [(-> & -> & Hn) | [[dict ->] Hn]].
  - by rewrite bool_decide_eq_true_2.
  - cbn [and_then]. destruct (issubclass K Func); [| done].
    rewrite bool_decide_eq_false_2; [done | specialize (Hn eq_refl); lia].
Qed.

Lemma squeeze_kind_base c n dm :
  c ∈ _base_operators -> (issubclass c Func = true -> n = 1) ->
  squeeze_kind (c, (Some n, dm))
  = (k <~ squeeze_class c (bool_decide (n = 1)) ;; inr (k, (Some n, dm))).
Proof.
  intros Hc. base_cases Hc; eval_classes; intros Hn;
    unfold squeeze_kind; cbn [fst snd]; eval_classes; cbv beta iota;
    unfold _squeeze_kind; cbn [fst snd];
    (case_bool_decide as H1;
      [ injection H1 as ->; rewrite bool_decide_eq_true_2 by done;
        vm_compute; reflexivity
      | rewrite bool_decide_eq_false_2 by congruence; reflexivity ]).
Qed.

Lemma ProxFunc_not_below c :
  c ∈ _base_operators ->
  bool_decide (properties ProxFunc ⊂ properties c) = false.
Proof. intros Hc. base_cases Hc; vm_compute; reflexivity. Qed.

Lemma specialize_ProxFunc_kind c n dm :
  c ∈ _base_operators -> 1 <= n ->
  specialize_kind (c, (Some n, dm)) ProxFunc
  = (k <~ specialize_ProxFunc_class c (bool_decide (n = 1)) ;;
     inr (k, (Some n, dm))).
Proof.
  intros Hc Hn. unfold specialize_kind, specialize_ProxFunc_class.
  cbn [fst snd]. rewrite ProxFunc_not_below by done.
  rewrite (construct_kind_base ProxFunc)
    by (apply (bool_decide_unpack _); vm_compute; reflexivity).
  eval_classes. cbn [andb].
  repeat case_bool_decide; cbn [and_then];
    first [reflexivity | congruence | lia].
Qed.

Lemma squeeze_class_base c single k :
  c ∈ _base_operators -> squeeze_class c single = inr k ->
  k ∈ _base_operators
  /\ (issubclass k Func = true -> single = true \/ issubclass c Func = true).
Proof.
  intros Hc. destruct single; base_cases Hc; cbn;
    intros Heq; simplify_eq; eval_classes;
    (split; [apply (bool_decide_unpack _); vm_compute; reflexivity | auto]).
Qed.

Lemma sum_resolved_base c1 c2 :
  c1 ∈ _base_operators -> c2 ∈ _base_operators ->
  sum_resolved c1 c2 ∈ _base_operators
  /\ (issubclass (sum_resolved c1 c2) Func = true ->
      issubclass c1 Func = true /\ issubclass c2 Func = true).
Proof.
  intros H1 H2.
  assert (forallb (fun a => forallb (fun b =>
            bool_decide (sum_resolved a b ∈ _base_operators)
            && implb (issubclass (sum_resolved a b) Func)
                     (issubclass a Func && issubclass b Func))
            _base_operators) _base_operators = true) as Hall
    by (vm_compute; reflexivity).
  apply list_elem_of_In in H1, H2.
  eapply forallb_forall in Hall; [| exact H1].
  eapply forallb_forall in Hall; [| exact H2].
  apply andb_true_iff in Hall as [Hbase Hfunc].
  apply bool_decide_eq_true in Hbase. split; [done |].
  intros Hsub. rewrite Hsub in Hfunc. by apply andb_true_iff in Hfunc.
Qed.

Lemma sum_resolved_properties c1 c2 :
  c1 ∈ _base_operators -> c2 ∈ _base_operators ->
  properties (sum_resolved c1 c2)
  = (properties c1 ∩ properties c2) ∖ {["prox"]}.
Proof.
  intros H1 H2. base_cases H1; base_cases H2;
    match goal with
    | |- context [sum_resolved ?a ?b] =>
        let v := eval vm_compute in (sum_resolved a b) in
        change (sum_resolved a b) with v
    end;
    base_properties; apply (bool_decide_unpack _); vm_compute; reflexivity.
Qed.

(** The properties two base kinds share, [prox] apart, are those of a base
    kind, which the search finds in any order. *)
Lemma sum_resolves c1 c2 :
  seed_ok -> c1 ∈ _base_operators -> c2 ∈ _base_operators ->
  resolve_kind ((properties c1 ∩ properties c2) ∖ {["prox"]})
  = sum_resolved c1 c2.
Proof.
  intros Hok H1 H2. apply resolve_kind_unique; [done | |].
  - by apply sum_resolved_base.
  - by apply sum_resolved_properties.
Qed.

(** The search finds the lifted kind of a composition of codomain size 1. *)
Lemma lift_resolves T sp single :
  seed_ok -> T ∈ _base_operators -> properties T = sp ->
  resolve_kind
    (if single && bool_decide ("jacobian" ∈ sp)
     then sp ∪ {["gradient"; "single_valued"]} else sp)
  = lift_class T single.
Proof.
  intros Hok HT <-. apply resolve_kind_unique; [done | |].
  - destruct single; base_cases HT;
      apply (bool_decide_unpack _); vm_compute; reflexivity.
  - destruct single; [| done]. cbn [andb lift_class].
    base_cases HT; base_properties;
      apply (bool_decide_unpack _); vm_compute; reflexivity.
Qed.

Lemma lift_class_base T single :
  T ∈ _base_operators ->
  lift_class T single ∈ _base_operators
  /\ (issubclass (lift_class T single) Func = true ->
      single = true \/ issubclass T Func = true).
Proof.
  intros HT. destruct single; base_cases HT; cbn [lift_class]; eval_classes;
    (split; [apply (bool_decide_unpack _); vm_compute; reflexivity | auto]).
Qed.

Lemma infer_sum_shape_codomain s1 s2 n1 n2 n dm :
  s1.1 = Some n1 -> s2.1 = Some n2 ->
  infer_sum_shape s1 s2 = Some (Some n, dm) -> n = Z.max n1 n2.
Proof.
  destruct s1 as [c1 [d1 |]], s2 as [c2 [d2 |]]; cbn; intros -> ->;
    repeat case_bool_decide; intros; simplify_eq; done.
Qed.

Lemma infer_sum_shape_comm s1 s2 :
  infer_sum_shape s1 s2 = infer_sum_shape s2 s1.
Proof.
  destruct s1 as [[c1 |] [d1 |]], s2 as [[c2 |] [d2 |]]; cbn; try done;
    rewrite (Z.max_comm c2 c1);
    repeat case_bool_decide; try done; try (exfalso; lia); congruence.
Qed.

Lemma infer_composition_shape_codomain s1 s2 n1 n dm :
  s1.1 = Some n1 ->
  infer_composition_shape s1 s2 = Some (Some n, dm) -> n = n1.
Proof.
  destruct s1 as [c1 d1], s2 as [[c2 |] d2]; cbn; intros ->; [| done].
  case_bool_decide; intros; simplify_eq; done.
Qed.

End BaseKinds.

(** ** Sums and products of base kinds, on classes *)

(** The pairs of base kinds whose sum raises. *)
Definition sum_raises (c1 c2 : PyClass) : Prop :=
  sum_table c1 c2 = Some DiffFunc \/ c1 = LinFunc
  \/ (c1 = ProxFunc /\ c2 = LinFunc).

(** The table of products the code realises: the docstring's table with
    the cell (LinFunc, Map) read as [Func]. *)
Definition product_table_realised (c1 c2 : PyClass) : option PyClass :=
  if bool_decide (c1 = LinFunc /\ c2 = Map) then Some Func
  else product_table c1 c2.

(** The class of a result of codomain size [n] whose table entry is [T]. *)
Definition squeezed (T : PyClass) (n : Z) : PyClass :=
  if bool_decide (n = 1) then single_valued_counterpart T else T.

Section ClassForms.
Context `{AM : ArrayModule} `{HS : HashSeed}.

Lemma Property_add_kind_class c1 c2 s1 s2 n dm :
  seed_ok -> c1 ∈ _base_operators -> c2 ∈ _base_operators ->
  operand_shape c1 s1 -> operand_shape c2 s2 ->
  infer_sum_shape s1 s2 = Some (Some n, dm) ->
  Property_add_kind (c1, s1) (c2, s2)
  = (k <~ Property_add_class c1 c2 (bool_decide (n = 1)) ;;
     inr (k, (Some n, dm))).
Proof.
  intros Hok H1 H2 (n1 & Hs1 & Hn1 & Hf1) (n2 & Hs2 & Hn2 & Hf2) Hshape.
  pose proof (infer_sum_shape_codomain _ _ _ _ _ _ Hs1 Hs2 Hshape) as Hn.
  unfold Property_add_kind, Property_add_class. cbn [fst snd].
  rewrite (base_issubclass_Map c2 H2). cbn [negb].
  rewrite Hshape. cbn [result_of_option and_then].
  rewrite sum_resolves by done.
  destruct (sum_resolved_base c1 c2 H1 H2) as [HT HTf].
  rewrite construct_kind_base by done.
  assert (issubclass (sum_resolved c1 c2) Func = true -> n = 1) as HnT.
  { intros HsT. destruct (HTf HsT) as [Hc1 Hc2].
    specialize (Hf1 Hc1). specialize (Hf2 Hc2). lia. }
  replace (issubclass (sum_resolved c1 c2) Func && bool_decide (n > 1))
    with false.
  - cbn [and_then]. by apply squeeze_kind_base.
  - destruct (issubclass (sum_resolved c1 c2) Func); [| done].
    rewrite bool_decide_eq_false_2; [done | specialize (HnT eq_refl); lia].
Qed.

Lemma Property_add_class_base c1 c2 n k :
  c1 ∈ _base_operators -> c2 ∈ _base_operators ->
  (issubclass c1 Func = true -> issubclass c2 Func = true -> n = 1) ->
  Property_add_class c1 c2 (bool_decide (n = 1)) = inr k ->
  k ∈ _base_operators /\ (issubclass k Func = true -> n = 1).
Proof.
  intros H1 H2 Hn Hk. destruct (sum_resolved_base c1 c2 H1 H2) as [HT HTf].
  destruct (squeeze_class_base _ _ _ HT Hk) as [Hbase Hfunc].
  split; [done |]. intros [Hs | Hs]%Hfunc.
  - by apply bool_decide_eq_true in Hs.
  - destruct (HTf Hs). auto.
Qed.

Lemma ProxFunc_add_kind_class c1 c2 s1 s2 n dm :
  seed_ok -> c1 ∈ _base_operators -> c2 ∈ _base_operators ->
  operand_shape c1 s1 -> operand_shape c2 s2 ->
  infer_sum_shape s1 s2 = Some (Some n, dm) ->
  ProxFunc_add_kind (c1, s1) (c2, s2)
  = (k <~ ProxFunc_add_class c1 c2 (bool_decide (n = 1)) ;;
     inr (k, (Some n, dm))).
Proof.
  intros Hok H1 H2 Ho1 Ho2 Hshape.
  unfold ProxFunc_add_kind, ProxFunc_add_class.
  rewrite (Property_add_kind_class c1 c2 s1 s2 n dm) by done.
  destruct Ho1 as (n1 & Hs1 & Hn1 & Hf1), Ho2 as (n2 & Hs2 & Hn2 & Hf2).
  pose proof (infer_sum_shape_codomain _ _ _ _ _ _ Hs1 Hs2 Hshape) as Hn.
  destruct (Property_add_class c1 c2 (bool_decide (n = 1))) as [e | f] eqn:Hf;
    cbn [and_then fst snd]; [done |].
  assert (issubclass c1 Func = true -> issubclass c2 Func = true -> n = 1)
    as Hsingle.
  { intros Hc1 Hc2. specialize (Hf1 Hc1). specialize (Hf2 Hc2). lia. }
  destruct (Property_add_class_base c1 c2 n f H1 H2 Hsingle Hf) as [Hfb Hfn].
  destruct (issubclass c2 LinFunc).
  - rewrite specialize_ProxFunc_kind by (done || lia).
    destruct (specialize_ProxFunc_class f (bool_decide (n = 1)))
      as [e | g] eqn:Hg; cbn [and_then]; [done |].
    apply squeeze_kind_base.
    + unfold specialize_ProxFunc_class in Hg.
      repeat case_bool_decide; simplify_eq; try done.
      apply (bool_decide_unpack _); vm_compute; reflexivity.
    + unfold specialize_ProxFunc_class in Hg.
      repeat case_bool_decide; simplify_eq; done.
  - cbn [and_then]. by apply squeeze_kind_base.
Qed.

Lemma add_kind_class c1 c2 s1 s2 n dm :
  seed_ok -> c1 ∈ _base_operators -> c2 ∈ _base_operators ->
  operand_shape c1 s1 -> operand_shape c2 s2 ->
  infer_sum_shape s1 s2 = Some (Some n, dm) ->
  add_kind (c1, s1) (c2, s2)
  = (k <~ add_class c1 c2 (bool_decide (n = 1)) ;; inr (k, (Some n, dm))).
Proof.
  intros Hok H1 H2 Ho1 Ho2 Hshape. unfold add_kind, add_class. cbn [fst].
  destruct (class_lookup c1 "__add__") as [[] |]; try done.
  - by apply Property_add_kind_class.
  - by apply ProxFunc_add_kind_class.
  - apply ProxFunc_add_kind_class; try done.
    by rewrite infer_sum_shape_comm.
Qed.

Lemma compose_kind_class c1 c2 s1 s2 n dm :
  seed_ok -> c1 ∈ _base_operators -> c2 ∈ _base_operators ->
  operand_shape c1 s1 ->
  infer_composition_shape s1 s2 = Some (Some n, dm) ->
  compose_kind (c1, s1) (c2, s2)
  = (k <~ compose_class c1 c2 (bool_decide (n = 1)) ;;
     inr (k, (Some n, dm))).
Proof.
  intros Hok H1 H2 (n1 & Hs1 & Hn1 & Hf1) Hshape.
  pose proof (infer_composition_shape_codomain _ _ _ _ _ Hs1 Hshape) as ->.
  unfold compose_kind, compose_class. cbn [fst snd].
  rewrite Hshape, Hs1. cbn [result_of_option and_then]. cbv zeta.
  replace (bool_decide (Some n1 = Some 1)) with (bool_decide (n1 = 1))
    by (apply bool_decide_ext; split; congruence).
  destruct (sum_resolved_base c1 c2 H1 H2) as [HT HTf].
  rewrite (lift_resolves (sum_resolved c1 c2))
    by (done || by apply sum_resolved_properties).
  destruct (lift_class_base (sum_resolved c1 c2) (bool_decide (n1 = 1)) HT)
    as [HL HLf].
  assert (issubclass (lift_class (sum_resolved c1 c2) (bool_decide (n1 = 1)))
            Func = true -> n1 = 1) as HnL.
  { intros [Hs | Hs]%HLf.
    - by apply bool_decide_eq_true in Hs.
    - destruct (HTf Hs). auto. }
  rewrite construct_kind_base by done.
  match goal with
  | |- context [issubclass ?L Func && bool_decide (n1 > 1)] =>
      replace (issubclass L Func && bool_decide (n1 > 1)) with false
  end.
  - cbn [and_then]. by apply squeeze_kind_base.
  - match goal with |- false = issubclass ?L Func && _ =>
      destruct (issubclass L Func) end; [| done].
    rewrite bool_decide_eq_false_2; [done | specialize (HnL eq_refl); lia].
Qed.

Lemma base_not_UnitOp c : c ∈ _base_operators -> issubclass c UnitOp = false.
Proof. intros Hc. base_cases Hc; vm_compute; reflexivity. Qed.

Lemma mul_kind_class c1 c2 s1 s2 n dm :
  seed_ok -> c1 ∈ _base_operators -> c2 ∈ _base_operators ->
  operand_shape c1 s1 ->
  infer_composition_shape s1 s2 = Some (Some n, dm) ->
  mul_kind (c1, s1) (c2, s2)
  = (k <~ mul_class c1 c2 (bool_decide (n = 1)) ;; inr (k, (Some n, dm))).
Proof.
  intros Hok H1 H2 Ho1 Hshape.
  unfold mul_kind, mul_class, ProxFunc_mul_kind, Property_mul_kind.
  cbn [fst snd]. rewrite (base_issubclass_Map c2 H2), (base_not_UnitOp c2 H2).
  cbn [negb]. rewrite (compose_kind_class c1 c2 s1 s2 n dm) by done.
  destruct (class_lookup c1 "__mul__") as [[] |]; try done.
  by destruct (compose_class c1 c2 (bool_decide (n = 1))).
Qed.

(** The class of a sum against the table of the docstring. *)
Lemma add_class_table c1 c2 single :
  c1 ∈ _base_operators -> c2 ∈ _base_operators ->
  (issubclass c1 Func = true -> issubclass c2 Func = true -> single = true) ->
  match add_class c1 c2 single with
  | inr k =>
      ~ sum_raises c1 c2
      /\ exists T, sum_table c1 c2 = Some T
                   /\ k = if single then single_valued_counterpart T else T
  | inl _ => sum_raises c1 c2
  end.
Proof.
  intros H1 H2.
  destruct single; base_cases H1; base_cases H2; vm_compute;
    intros Hf;
    first [ discriminate (Hf eq_refl eq_refl)
          | left; reflexivity | right; left; reflexivity
          | right; right; split; reflexivity
          | split; [intros [? | [? | [? ?]]]; congruence
                   | eexists; split; reflexivity] ].
Qed.

(** The class of a product against the table of the docstring. *)
Lemma mul_class_table c1 c2 single :
  c1 ∈ _base_operators -> c2 ∈ _base_operators ->
  (issubclass c1 Func = true -> single = true) ->
  match mul_class c1 c2 single with
  | inr k =>
      exists T, product_table_realised c1 c2 = Some T
                /\ k = (if single then single_valued_counterpart T else T)
                /\ c1 <> ProxFunc /\ k <> DiffFunc
  | inl _ =>
      c1 = ProxFunc
      \/ exists T, product_table_realised c1 c2 = Some T
                   /\ (if single then single_valued_counterpart T else T)
                      = DiffFunc
  end.
Proof.
  intros H1 H2.
  destruct single; base_cases H1; base_cases H2; vm_compute;
    intros Hf1;
    first [ discriminate (Hf1 eq_refl)
          | left; reflexivity
          | right; eexists; split; reflexivity
          | eexists; split; [reflexivity |];
            split; [reflexivity |]; split; congruence ].
Qed.

(** What a combinator does when its image on classes is known. *)
Lemma sound_class h0 P (m : M addr) (kc : Exception + PyClass) s h :
  sound h0 P m (k <~ kc ;; inr (k, s)) h ->
  match kc with
  | inr k => exists r h', m h = Ok r h' /\ class_at h' r = Some k
  | inl e => exists h', m h = Raise e h'
  end.
Proof.
  unfold sound, wp. destruct kc as [e | k]; cbn [and_then];
    destruct (m h) as [r h' | e' h'].
  - by intros (c & s' & ? & _).
  - intros [[= <-] _]. by eexists.
  - intros (c & s' & [= <- <-] & [Hc _] & _). by eexists _, _.
  - by intros [? _].
Qed.

End ClassForms.

(** * The closure tables *)

Section Closure.
Context `{AM : ArrayModule} `{HS : HashSeed}.

(** What the code does on every pair of base kinds.  For operands of base
    kinds [c1] and [c2] with positive codomain sizes (1 for the single-valued kinds): when the shapes can be
    added, with codomain size [n] of the sum, [a + b] returns exactly when
    the entry of the table of sums is not [DiffFunc], [c1] is not [LinFunc]
    and the pair is not (ProxFunc, LinFunc), and the class of what it returns
    is the entry of the table, replaced by its single-valued counterpart when
    [n = 1]; when the shapes can be composed, with codomain size [n] of the
    product, [a * b] returns exactly when [c1] is not [ProxFunc] and the class
    [K] below is not [DiffFunc], and the class of what it returns is [K]: the
    entry of the table of products, with the cell (LinFunc, Map) read as
    [Func], replaced by its single-valued counterpart when [n = 1]. *)
Theorem closure_tables_up_to_squeeze (h : heap) a b c1 s1 c2 s2 :
  seed_ok -> c1 ∈ _base_operators -> c2 ∈ _base_operators ->
  is_operator h a c1 s1 -> is_operator h b c2 s2 ->
  operand_shape c1 s1 -> operand_shape c2 s2 ->
  (forall n dm, infer_sum_shape s1 s2 = Some (Some n, dm) ->
     ((exists r h', __add__ a (VRef b) h = Ok r h') <-> ~ sum_raises c1 c2)
     /\ forall r h', __add__ a (VRef b) h = Ok r h' ->
          exists T, sum_table c1 c2 = Some T
                    /\ class_at h' r = Some (squeezed T n))
  /\ (forall n dm, infer_composition_shape s1 s2 = Some (Some n, dm) ->
      exists T, product_table_realised c1 c2 = Some T
        /\ ((exists r h', __mul__ a (VRef b) h = Ok r h')
            <-> c1 <> ProxFunc /\ squeezed T n <> DiffFunc)
        /\ forall r h', __mul__ a (VRef b) h = Ok r h' ->
             class_at h' r = Some (squeezed T n)).
Proof.
  intros Hok H1 H2 Ha Hb Ho1 Ho2. split; intros n dm Hshape.
  - pose proof (add_sound h a b c1 s1 c2 s2 Hok Ha Hb) as Hs.
    rewrite (add_kind_class c1 c2 s1 s2 n dm) in Hs by done.
    apply sound_class in Hs.
    pose proof (add_class_table c1 c2 (bool_decide (n = 1)) H1 H2) as Ht.
    destruct Ho1 as (n1 & Hs1 & Hn1 & Hf1), Ho2 as (n2 & Hs2 & Hn2 & Hf2).
    pose proof (infer_sum_shape_codomain _ _ _ _ _ _ Hs1 Hs2 Hshape) as Hn.
    destruct (add_class c1 c2 (bool_decide (n = 1))) as [e | k].
    + destruct Hs as [h' Hs]. rewrite Hs.
      assert (sum_raises c1 c2) as Hr.
      { apply Ht. intros Hc1 Hc2. specialize (Hf1 Hc1). specialize (Hf2 Hc2).
        apply bool_decide_eq_true. lia. }
      split; [| by intros ?? [=]].
      split; [by intros (? & ? & [=]) | by intros []].
    + destruct Hs as (r & h' & Hs & Hc). rewrite Hs.
      destruct Ht as (Hr & T & HT & Hk).
      { intros Hc1 Hc2. specialize (Hf1 Hc1). specialize (Hf2 Hc2).
        apply bool_decide_eq_true. lia. }
      split; [split; [done | by eexists _, _] |].
      intros r' h'' [= <- <-]. exists T. split; [done |].
      by rewrite Hc, Hk.
  - pose proof (mul_sound h a b c1 s1 c2 s2 Hok Ha Hb) as Hs.
    rewrite (mul_kind_class c1 c2 s1 s2 n dm) in Hs by done.
    apply sound_class in Hs.
    pose proof (mul_class_table c1 c2 (bool_decide (n = 1)) H1 H2) as Ht.
    destruct Ho1 as (n1 & Hs1 & Hn1 & Hf1).
    pose proof (infer_composition_shape_codomain _ _ _ _ _ Hs1 Hshape) as ->.
    assert (issubclass c1 Func = true -> bool_decide (n1 = 1) = true) as Hf.
    { intros Hc1. apply bool_decide_eq_true. auto. }
    specialize (Ht Hf).
    assert (exists T, product_table_realised c1 c2 = Some T) as [T HT].
    { clear -H1 H2. base_cases H1; base_cases H2; by eexists. }
    exists T. split; [done |]. unfold squeezed.
    destruct (mul_class c1 c2 (bool_decide (n1 = 1))) as [e | k].
    + destruct Hs as [h' Hs]. rewrite Hs.
      split; [| by intros ?? [=]].
      split; [by intros (? & ? & [=]) |]. intros [Hc1 Hk].
      destruct Ht as [-> | (T' & HT' & HD)]; [done |].
      rewrite HT in HT'. by simplify_eq.
    + destruct Hs as (r & h' & Hs & Hc). rewrite Hs.
      destruct Ht as (T' & HT' & Hk & Hc1 & HD).
      rewrite HT in HT'. simplify_eq.
      split; [split; [done | by eexists _, _] |].
      by intros r' h'' [= <- <-].
Qed.

End Closure.

(** * The guard of [specialize] *)

Section Guard.
Context `{AM : ArrayModule} `{HS : HashSeed}.

(** What a combinator does when its image on classes and shapes is
    known. *)
Lemma sound_result h0 P (m : M addr) (k : Exception + Kind) h :
  sound h0 P m k h ->
  match k with
  | inr (c, s) => exists r h', m h = Ok r h' /\ is_operator h' r c s /\ P r
  | inl e => exists h', m h = Raise e h'
  end.
Proof.
  unfold sound, wp. destruct k as [e | [c s]];
    destruct (m h) as [r h' | e' h'].
  - by intros (c & s' & ? & _).
  - intros [[= <-] _]. by eexists.
  - intros (c' & s' & [= <- <-] & Hop & _ & HP). by eexists _, _.
  - by intros [? _].
Qed.

(** C6 (amended).  Casting an operator of class [c] and codomain size [n]
    to a base kind [K] raises a value error exactly when [K] is another class
    than [c] and either the properties of [K] are a proper subset of those
    of [c], or [K] is single-valued and [n > 1]; otherwise it returns an
    operator of class [K], which is the operator itself when [K] is [c]. *)
Theorem specialize_raises_iff (h : heap) self c n dm K :
  seed_ok -> is_operator h self c (Some n, dm) -> K ∈ _base_operators ->
  let refused :=
    K <> c /\ (properties K ⊂ properties c
               \/ (issubclass K Func = true /\ n > 1)) in
  ((exists h', specialize self K h = Raise ValueError h') <-> refused)
  /\ (~ refused ->
      exists r h', specialize self K h = Ok r h' /\ class_at h' r = Some K)
  /\ (K = c -> specialize self K h = Ok self h).
Proof.
  intros Hok Hop HK refused.
  assert (K = c -> specialize self K h = Ok self h) as Hsame.
  { intros ->. destruct Hop as [Hc _]. unfold specialize, bind.
    rewrite (type_of_operator h self c Hc).
    rewrite bool_decide_eq_true_2 by reflexivity. reflexivity. }
  enough (((exists h', specialize self K h = Raise ValueError h') <-> refused)
          /\ (~ refused ->
              exists r h', specialize self K h = Ok r h'
                           /\ class_at h' r = Some K)) as [Hiff Hret]
    by (split; [exact Hiff | split; [exact Hret | exact Hsame]]).
  clear Hsame.
  pose proof (specialize_sound h self c (Some n, dm) K Hok Hop
                (base_issubclass_Map K HK)) as Hs.
  apply sound_result in Hs. unfold specialize_kind in Hs.
  cbn [fst snd] in Hs. rewrite construct_kind_base in Hs by done.
  subst refused. case_bool_decide as HKc.
  { subst c. destruct Hs as (r & h' & Hs & [Hc _] & _). rewrite Hs.
    split; [split; [by intros [? [=]] | by intros [[] _]] |].
    intros _. by eexists _, _. }
  case_bool_decide as Hsub.
  { destruct Hs as (h' & Hs). rewrite Hs.
    split; [split; [by auto | by eexists] |]. intros []. by auto. }
  destruct (issubclass K Func) eqn:HKf; cbn [andb] in Hs;
    [case_bool_decide as Hn |].
  - destruct Hs as (h' & Hs). rewrite Hs.
    split; [split; [by auto | by eexists] |]. intros []. by auto.
  - destruct Hs as (r & h' & Hs & [Hc _] & _). rewrite Hs.
    split; [split; [by intros [? [=]] |] |].
    + intros [_ [? | [_ ?]]]; [done | lia].
    + intros _. by eexists _, _.
  - destruct Hs as (r & h' & Hs & [Hc _] & _). rewrite Hs.
    split; [split; [by intros [? [=]] |] |].
    + intros [_ [? | [? _]]]; done.
    + intros _. by eexists _, _.
Qed.

End Guard.

(** * The combinators and their operands *)

Section Operands.
Context `{AM : ArrayModule} `{HS : HashSeed}.

Lemma preserves___pow__ h0 self power :
  preserves h0 (__pow__ self power) (fresh_or h0 self).
Proof.
  unfold __pow__. read.
  destruct (class_lookup _ "__pow__") as [[] |];
    try apply preserves_raise.
  - unfold Property___pow__. case_bool_decide.
    + read. eapply preserves_weaken;
        [apply preserves_new_IdentityOperator | by right].
    + apply preserves_pow_loop.
  - unfold ProjOp___pow__. case_bool_decide.
    + read. eapply preserves_weaken;
        [apply preserves_new_IdentityOperator | by right].
    + apply preserves_ret. by left.
Qed.

(** [A ** (k + 2)] runs [A ** (k + 1)] and multiplies [A] by its result:
    the loop of [Property.__pow__] composes on the left, one factor at a
    time. *)
Lemma pow_loop_last count self exp_map (h : heap) :
  pow_loop (S count) self exp_map h
  = (r <- pow_loop count self exp_map ;; __mul__ self (VRef r)) h.
Proof.
  revert exp_map h. induction count as [| count IH]; intros exp_map h.
  - cbn [pow_loop]. unfold bind, ret.
    by destruct (__mul__ self (VRef exp_map) h).
  - change (pow_loop (S (S count)) self exp_map)
      with (e <- __mul__ self (VRef exp_map) ;; pow_loop (S count) self e).
    change (pow_loop (S count) self exp_map)
      with (e <- __mul__ self (VRef exp_map) ;; pow_loop count self e).
    unfold bind.
    destruct (__mul__ self (VRef exp_map) h) as [e h' | e h']; [| done].
    apply IH.
Qed.


End Operands.

(** * The Jacobian of a linear operator *)

Section Jacobian.
Context `{AM : ArrayModule} `{HS : HashSeed}.

Lemma LinOp_jacobian_lookup c :
  issubclass c LinOp = true -> class_lookup c "jacobian" = Some LinOp.
Proof.
  destruct c; vm_compute; first [reflexivity | intros Hsub; discriminate Hsub].
Qed.

(** For an instance [A] of [LinOp] or of one of its
    subclasses whose dictionary does not bind [jacobian], [A.jacobian(x)]
    returns [A] itself for every [x] and leaves the store as it is. *)
Theorem LinOp_jacobian_is_self (h : heap) A c x depth :
  class_at h A = Some c -> issubclass c LinOp = true ->
  attr_at h A "jacobian" = None ->
  call_method (S depth) A "jacobian" [x] h = Ok (VRef A) h.
Proof.
  unfold class_at, attr_at.
  destruct (h !! A) as [o |] eqn:Ho; [| done].
  cbn [fmap option_fmap option_map mbind option_bind].
  intros [= <-] Hsub Hdict.
  unfold call_method, getattr, get_obj. unfold bind. rewrite Ho.
  rewrite bool_decide_eq_false_2 by discriminate.
  rewrite Hdict, (LinOp_jacobian_lookup _ Hsub). reflexivity.
Qed.

End Jacobian.

(** * Sums and squeezes that raise *)

Section Raises.
Context `{AM : ArrayModule} `{HS : HashSeed}.

(** The sum of a [ProxFunc] and a [LinFunc] of compatible shapes
    raises a value error: it is cast to [ProxFunc] and then squeezed, and
    [squeeze] on a [ProxFunc] asks for a cast to [Func], which [specialize]
    refuses. *)
Theorem ProxFunc_plus_LinFunc_raises (h : heap) f l s1 s2 n dm :
  seed_ok -> is_operator h f ProxFunc s1 -> is_operator h l LinFunc s2 ->
  operand_shape ProxFunc s1 -> operand_shape LinFunc s2 ->
  infer_sum_shape s1 s2 = Some (Some n, dm) ->
  exists h', __add__ f (VRef l) h = Raise ValueError h'.
Proof.
  intros Hok Hf Hl Ho1 Ho2 Hshape.
  pose proof (add_sound h f l ProxFunc s1 LinFunc s2 Hok Hf Hl) as Hs.
  assert (ProxFunc ∈ _base_operators) as H1
    by (apply (bool_decide_unpack _); vm_compute; reflexivity).
  assert (LinFunc ∈ _base_operators) as H2
    by (apply (bool_decide_unpack _); vm_compute; reflexivity).
  rewrite (add_kind_class ProxFunc LinFunc s1 s2 n dm) in Hs by done.
  destruct Ho1 as (n1 & Hs1 & Hn1 & Hf1), Ho2 as (n2 & Hs2 & Hn2 & Hf2).
  pose proof (infer_sum_shape_codomain _ _ _ _ _ _ Hs1 Hs2 Hshape) as Hn.
  assert (n = 1) as ->.
  { rewrite Hn, Hf1, Hf2 by (vm_compute; reflexivity). reflexivity. }
  apply sound_class in Hs. exact Hs.
Qed.

(** [squeeze] raises a value error on every [DiffFunc] and every
    [ProxFunc] of codomain size 1: these classes take [squeeze] from [Map],
    which asks for a cast to [Func], and their properties are a proper
    superset of those of [Func]. *)
Theorem squeeze_raises_on_DiffFunc_ProxFunc (h : heap) self c dm :
  seed_ok -> is_operator h self c (Some 1, dm) ->
  c = DiffFunc \/ c = ProxFunc ->
  exists h', squeeze self h = Raise ValueError h'.
Proof.
  intros Hok Hop Hc.
  pose proof (squeeze_sound h self c (Some 1, dm) Hok Hop) as Hs.
  rewrite squeeze_kind_base in Hs.
  - apply sound_class in Hs. by destruct Hc as [-> | ->].
  - destruct Hc as [-> | ->];
      apply (bool_decide_unpack _); vm_compute; reflexivity.
  - done.
Qed.

(** C1.  The sum of two [DiffFunc]s of compatible shapes raises a value
    error, where the table of sums has [DiffFunc]: the sum is built as a
    [DiffFunc] and then squeezed, and [squeeze] on a [DiffFunc] asks for a
    cast to [Func], which [specialize] refuses. *)
Theorem sum_of_DiffFuncs_raises (h : heap) a b s1 s2 n dm :
  seed_ok -> is_operator h a DiffFunc s1 -> is_operator h b DiffFunc s2 ->
  operand_shape DiffFunc s1 -> operand_shape DiffFunc s2 ->
  infer_sum_shape s1 s2 = Some (Some n, dm) ->
  sum_table DiffFunc DiffFunc = Some DiffFunc
  /\ exists h', __add__ a (VRef b) h = Raise ValueError h'.
Proof.
  intros Hok Ha Hb Ho1 Ho2 Hshape. split; [reflexivity |].
  pose proof (add_sound h a b DiffFunc s1 DiffFunc s2 Hok Ha Hb) as Hs.
  assert (DiffFunc ∈ _base_operators) as H1
    by (apply (bool_decide_unpack _); vm_compute; reflexivity).
  rewrite (add_kind_class DiffFunc DiffFunc s1 s2 n dm) in Hs by done.
  destruct Ho1 as (n1 & Hs1 & Hn1 & Hf1), Ho2 as (n2 & Hs2 & Hn2 & Hf2).
  pose proof (infer_sum_shape_codomain _ _ _ _ _ _ Hs1 Hs2 Hshape) as Hn.
  assert (n = 1) as ->.
  { rewrite Hn, Hf1, Hf2 by (vm_compute; reflexivity). reflexivity. }
  apply sound_class in Hs. exact Hs.
Qed.

End Raises.

(** * Further properties of the classes and of the constructors *)

Section Classes.
Context `{AM : ArrayModule} `{HS : HashSeed}.

(** The properties of the seven base kinds, as the docstring of
    [Property.properties] lists them. *)
Theorem base_kind_properties :
  properties Map = {["apply"]}
  /\ properties DiffMap = {["apply"; "jacobian"]}
  /\ properties Func = {["apply"; "single_valued"]}
  /\ properties DiffFunc
     = {["apply"; "single_valued"; "jacobian"; "gradient"]}
  /\ properties ProxFunc = {["apply"; "single_valued"; "prox"]}
  /\ properties LinOp = {["apply"; "jacobian"; "adjoint"]}
  /\ properties LinFunc
     = {["apply"; "single_valued"; "jacobian"; "gradient"; "adjoint"]}.
Proof.
  exact (conj properties_Map (conj properties_DiffMap (conj properties_Func
           (conj properties_DiffFunc (conj properties_ProxFunc
              (conj properties_LinOp properties_LinFunc)))))).
Qed.

(** [properties] never lists the Lipschitz constants, which are attributes
    of the instances: no class has them, so the branches of the loops of
    [__add__] and [__mul__] on these names are never taken. *)
Theorem Lipschitz_names_are_not_properties c :
  ("_lipschitz" ∉ properties c) /\ ("_diff_lipschitz" ∉ properties c)
  /\ ("_lispchitz" ∉ properties c).
Proof.
  assert (bool_decide ("_lipschitz" ∉ properties c)
          && bool_decide ("_diff_lipschitz" ∉ properties c)
          && bool_decide ("_lispchitz" ∉ properties c) = true) as Hall
    by (destruct c; vm_compute; reflexivity).
  apply andb_true_iff in Hall as [Hall H3].
  apply andb_true_iff in Hall as [H1 H2].
  apply bool_decide_eq_true in H1, H2, H3. done.
Qed.

(** [cls.has(prop)] builds [set(prop)]: for a [str] this is the set of its
    characters, so [cls.has("single_valued")] is false for every class,
    and a one-letter name would be needed for it to be true.  With a tuple
    of names it is the inclusion test of the docstring. *)
Theorem has_of_a_str_is_false c :
  has c (str_items "single_valued") = false
  /\ has c (str_items "apply") = false
  /\ has LinOp ["adjoint"; "jacobian"] = true
  /\ has LinOp ["adjoint"; "prox"] = false.
Proof.
  split; [destruct c; vm_compute; reflexivity |].
  split; [destruct c; vm_compute; reflexivity |].
  split; vm_compute; reflexivity.
Qed.

(** The search for the kind with given properties, in the loops over
    [_base_operators] of [__add__] and [__mul__], finds the base kind that
    has them whatever the order in which the frozenset is iterated. *)
Theorem kind_search_is_order_independent sp Op :
  seed_ok -> Op ∈ _base_operators -> properties Op = sp ->
  resolve_kind sp = Op.
Proof. apply resolve_kind_unique. Qed.

(** The properties two base kinds share, [prox] apart, are those of one
    base kind: the search of [Property.__add__] always ends on a match. *)
Theorem shared_properties_name_a_kind c1 c2 :
  c1 ∈ _base_operators -> c2 ∈ _base_operators ->
  exists Op, Op ∈ _base_operators
    /\ properties Op = (properties c1 ∩ properties c2) ∖ {["prox"]}
    /\ forall Op', Op' ∈ _base_operators ->
         properties Op' = properties Op -> Op' = Op.
Proof.
  intros H1 H2. exists (sum_resolved c1 c2).
  destruct (sum_resolved_base c1 c2 H1 H2) as [Hbase _].
  split; [done |]. split; [by apply sum_resolved_properties |].
  intros Op' HOp' Heq. by apply properties_inj.
Qed.

(** The constructor of a base kind raises a value error exactly when the
    kind is single-valued and the codomain size is greater than 1, and
    returns otherwise. *)
Theorem single_valued_constructor_rejects K n dm :
  K ∈ _base_operators ->
  (init K (Some n, dm) = inl ValueError
   <-> issubclass K Func = true /\ n > 1)
  /\ (~ (issubclass K Func = true /\ n > 1) ->
      exists dict, init K (Some n, dm) = inr dict).
Proof.
  intros HK.
  destruct (init_base_kind K n dm HK) as [(Hi & Hf & Hn) | [[dict Hi] Hn]].
  - split; [by split | by intros []].
  - rewrite Hi. split; [| by eexists].
    split; [by intros [=] |]. intros [Hf Hgt]. specialize (Hn Hf). lia.
Qed.

End Classes.

(** * Further properties of the operators *)

Section Operators.
Context `{AM : ArrayModule} `{HS : HashSeed}.

(** A constructor that returns has recorded the shape it was given and set
    the Lipschitz constant to 1 for a [UnitOp] or an [OrthProjOp] and to
    infinity otherwise; the diff-Lipschitz constant is 0 for a linear
    operator, infinity for another differentiable map, and is not set for
    the other classes, [DiffFunc] among them. *)
Theorem constructor_sets_constants C s dict :
  issubclass C Map = true -> init C s = inr dict ->
  dict !! "_shape" = Some (VTuple s)
  /\ dict !! "_lipschitz"
     = Some (VReal (if issubclass C UnitOp || issubclass C OrthProjOp
                    then real_of_Z 1 else np_infty))
  /\ dict !! "_diff_lipschitz"
     = (if issubclass C LinOp then Some (VReal (real_of_Z 0))
        else if issubclass C DiffMap then Some (VReal np_infty)
        else None).
Proof.
  intros Hsub.
  destruct C; vm_compute in Hsub; try discriminate Hsub; clear Hsub;
    destruct s as [[n |] dm]; run_init; eval_classes;
    cbv beta iota; cbn [orb];
    lazymatch goal with
    | |- inl _ = inr _ -> _ => intros Heq; discriminate Heq
    | |- _ => intros Heq%inr_eq; subst dict; simplify_eq
    end;
    (split; [| split]);
    repeat (rewrite lookup_insert_ne by discriminate);
    first [ rewrite lookup_insert_eq; reflexivity | apply lookup_empty ].
Qed.

(** No constructor accepts a shape whose codomain size is [None]. *)
Theorem constructor_rejects_agnostic_codomain C dm :
  issubclass C Map = true -> exists e, init C (None, dm) = inl e.
Proof.
  intros Hsub.
  destruct C; vm_compute in Hsub; try discriminate Hsub; clear Hsub;
    run_init; eval_classes; eexists; reflexivity.
Qed.

(** The constructor of a square operator raises a value error on a shape
    whose two sizes differ. *)
Theorem square_constructor_rejects C s :
  C ∈ [SquareOp; NormalOp; SelfAdjointOp; UnitOp; ProjOp; OrthProjOp;
       PosDefOp] ->
  s.1 <> s.2 -> init C s = inl ValueError.
Proof.
  intros HC Hs. destruct s as [n m]. cbn [fst snd] in Hs.
  repeat (apply elem_of_cons in HC as [-> | HC]);
    [.. | apply elem_of_nil in HC; destruct HC];
    run_init; eval_classes; first [reflexivity | congruence].
Qed.

Lemma squeeze_lookup c :
  issubclass c Map = true ->
  class_lookup c "squeeze" = Some Map
  \/ class_lookup c "squeeze" = Some DiffMap
  \/ class_lookup c "squeeze" = Some LinOp.
Proof.
  destruct c; vm_compute; intros Hsub;
    first [ discriminate Hsub
          | left; reflexivity
          | right; left; reflexivity
          | right; right; reflexivity ].
Qed.

(** [squeeze] returns the operator itself, and changes nothing, when the
    codomain size is not 1, whatever the class of the operator. *)
Theorem squeeze_is_identity_off_codomain_1 (h : heap) self c s :
  is_operator h self c s -> issubclass c Map = true -> s.1 <> Some 1 ->
  squeeze self h = Ok self h.
Proof.
  intros [Hc Hs] Hsub Hn. unfold squeeze, bind.
  rewrite (type_of_operator h self c Hc).
  assert (forall out, _squeeze self out h = Ok self h) as Hsq.
  { intros out. unfold _squeeze, bind.
    rewrite (get_shape_operator h self s Hs).
    by rewrite bool_decide_eq_false_2. }
  destruct (squeeze_lookup c Hsub) as [-> | [-> | ->]]; apply Hsq.
Qed.

(** On an operator of codomain size 1 of a base kind other than [DiffFunc]
    and [ProxFunc], [squeeze] returns an operator of the single-valued
    counterpart of the kind, with the same shape, and leaves the operators
    of the store as they are. *)
Theorem squeeze_casts_to_counterpart (h : heap) self c dm :
  seed_ok -> c ∈ _base_operators -> c <> DiffFunc -> c <> ProxFunc ->
  is_operator h self c (Some 1, dm) ->
  exists r h',
    squeeze self h = Ok r h'
    /\ is_operator h' r (single_valued_counterpart c) (Some 1, dm)
    /\ h `prefix_of` h'.
Proof.
  intros Hok Hc HD HP Hop.
  pose proof (squeeze_sound h self c (Some 1, dm) Hok Hop) as Hs.
  rewrite squeeze_kind_base in Hs by done.
  rewrite bool_decide_eq_true_2 in Hs by done.
  unfold sound, wp in Hs.
  destruct (squeeze self h) as [r h' | e h'].
  - destruct Hs as (c' & s' & Heq & Hop' & Hpre & _).
    exists r, h'. split; [done |].
    base_cases Hc; try done; cbn in Heq; by simplify_eq.
  - destruct Hs as [Heq _]. base_cases Hc; try done; by cbn in Heq.
Qed.

(** [specialize] and [squeeze] leave the operators of the store as they
    are, whether they return or raise, and what they return is the
    operator itself or a new instance. *)
Theorem casts_keep_operators (h : heap) self K :
  preserves h (specialize self K) (fresh_or h self)
  /\ preserves h (squeeze self) (fresh_or h self).
Proof. split; [apply preserves_specialize | apply preserves_squeeze]. Qed.

(** For a projection, [P ** n] is [P] itself for every [n] other than
    0. *)
Theorem ProjOp_pow_is_self (h : heap) self c power :
  class_at h self = Some c -> issubclass c ProjOp = true -> power <> 0 ->
  __pow__ self power h = Ok self h.
Proof.
  intros Hc Hsub Hp. unfold __pow__, bind.
  rewrite (type_of_operator h self c Hc).
  assert (class_lookup c "__pow__" = Some ProjOp) as ->.
  { destruct c; vm_compute in Hsub; try discriminate Hsub;
      vm_compute; reflexivity. }
  unfold ProjOp___pow__. by rewrite bool_decide_eq_false_2.
Qed.

(** For a class that takes [__pow__] from [Property], [A ** n] is [A]
    itself for [n = 1] and for every negative [n]: the loop over
    [range(1, n)] is empty. *)
Theorem pow_below_two_is_self (h : heap) self c power :
  class_at h self = Some c -> class_lookup c "__pow__" = Some Property_ ->
  power <> 0 -> power <= 1 ->
  __pow__ self power h = Ok self h.
Proof.
  intros Hc Hlookup Hp Hle. unfold __pow__, bind.
  rewrite (type_of_operator h self c Hc), Hlookup.
  unfold Property___pow__. rewrite bool_decide_eq_false_2 by done.
  replace (Z.to_nat (power - 1)) with 0%nat by lia. reflexivity.
Qed.


End Operators.

(** * Concrete operators

    Operators over exact rational arrays, with the two iteration orders of
    [Exact]. *)

Module Examples.
Import Exact.

Definition shape (n k : Z) : Shape := (Some n, Some k).

(** [x ↦ q x] *)
Definition times (q : Q) : Function := Native (fun a => scale (Finite q) a).

(** The proximal operator of [x ↦ |x|² / 2] up to the step:
    [(x, tau) ↦ tau x]. *)
Definition scaled_prox : Function := NativeProx (fun x tau => scale tau x).

Definition x0 : Value := VArray (Vec [1%Q; 2%Q]).

(** The class of the operator a computation returns. *)
Definition class_of_result (m : M addr) (h : heap) :
    Exception + PyClass :=
  match m h with
  | Ok r h' => result_of_option AttributeError (class_at h' r)
  | Raise e _ => inl e
  end.

(** Two operators of the same class and shape, at the addresses 0 and 1. *)
Definition two_operators (c : PyClass) (s : Shape) : heap :=
  store_of ((_ <- construct c s ;; construct c s) []).

Lemma ascending_ok : @seed_ok ascending.
Proof. split; [intros s |]; reflexivity. Qed.

Lemma descending_ok : @seed_ok descending.
Proof.
  split; [intros s |]; apply reverse_Permutation.
Qed.

(** The sum of two [Map]s of codomain size 1 is a [Func], where the table
    of sums has [Map]. *)
Lemma sum_of_maps_is_Func :
  class_of_result
    (a <- construct Map (shape 1 2) ;;
     b <- construct Map (shape 1 2) ;;
     __add__ (HS := ascending) a (VRef b)) []
  = inr Func
  /\ sum_table Map Map = Some Map.
Proof. split; vm_compute; reflexivity. Qed.

(** The sum of two [Map]s of shape (3, 2) returns. *)
Lemma closure_tables_at_maps :
  ((exists r h',
      __add__ (HS := ascending) 0%nat (VRef 1%nat)
        (two_operators Map (shape 3 2)) = Ok r h')
   <-> ~ sum_raises Map Map).
Proof.
  pose proof (closure_tables_up_to_squeeze (HS := ascending)
                (two_operators Map (shape 3 2))
                0%nat 1%nat Map (shape 3 2) Map (shape 3 2)) as Hthm.
  destruct Hthm as [Hsum _].
  - exact ascending_ok.
  - apply (bool_decide_unpack _); vm_compute; reflexivity.
  - apply (bool_decide_unpack _); vm_compute; reflexivity.
  - split; vm_compute; reflexivity.
  - split; vm_compute; reflexivity.
  - exists 3. split; [reflexivity |]. split; [lia |].
    intros Hsub; vm_compute in Hsub; discriminate Hsub.
  - exists 3. split; [reflexivity |]. split; [lia |].
    intros Hsub; vm_compute in Hsub; discriminate Hsub.
  - exact (proj1 (Hsum 3 (Some 2) eq_refl)).
Defined.

(** C6, counterexample: a [LinOp] of codomain size 1 is cast to [Func]
    although [Func] lacks its properties [jacobian] and [adjoint], and a
    [Map] of codomain size 2 is refused although [Func] has all its
    properties. *)
Lemma specialize_to_Func :
  class_of_result (a <- construct LinOp (shape 1 2) ;;
                   specialize (HS := ascending) a Func) [] = inr Func
  /\ bool_decide (properties LinOp ⊆ properties Func) = false
  /\ class_of_result (a <- construct Map (shape 2 2) ;;
                      specialize (HS := ascending) a Func) []
     = inl ValueError
  /\ bool_decide (properties Map ⊆ properties Func) = true.
Proof. repeat split; vm_compute; reflexivity. Qed.

(** C6, at a [LinOp] of shape (1, 2) cast to [Func]. *)
Lemma specialize_raises_iff_at_LinOp :
  exists r h',
    specialize (HS := ascending) 0%nat Func
      (store_of (construct LinOp (shape 1 2) [])) = Ok r h'
    /\ class_at h' r = Some Func.
Proof.
  pose proof (specialize_raises_iff (HS := ascending)
                (store_of (construct LinOp (shape 1 2) []))
                0%nat LinOp 1 (Some 2) Func) as Hthm.
  destruct Hthm as [_ [Hreturns _]].
  - exact ascending_ok.
  - split; vm_compute; reflexivity.
  - apply (bool_decide_unpack _); vm_compute; reflexivity.
  - apply Hreturns. intros [_ [Hsub | [_ Hn]]]; [| lia].
    apply (bool_decide_eq_true_2 _) in Hsub.
    vm_compute in Hsub. discriminate Hsub.
Defined.



(** C10.  The [LinFunc] that [squeeze] makes of a [LinOp] of codomain
    size 1 is a new instance, at address 1, and its [jacobian] returns the
    [LinOp] it was made of, at address 0, not the instance itself:
    [specialize] has copied the bound method, because its test
    [cast_to.has("single_valued")] is false. *)
Lemma jacobian_of_squeezed_LinOp :
  result_of
    ((a <- construct LinOp (shape 1 2) ;;
      b <- squeeze (HS := ascending) a ;;
      c <- type_of b ;;
      j <- call_method (HS := ascending) 10 b "jacobian" [x0] ;;
      ret (a, b, c, j)) [])
  = inr (0%nat, 1%nat, LinFunc, VRef 0%nat).
Proof. vm_compute; reflexivity. Qed.

(** The Jacobian of a [LinOp] of shape (2, 2). *)
Lemma LinOp_jacobian_is_self_at_LinOp :
  call_method (HS := ascending) 1 0%nat "jacobian" [x0]
    (store_of (construct LinOp (shape 2 2) []))
  = Ok (VRef 0%nat) (store_of (construct LinOp (shape 2 2) [])).
Proof.
  apply (LinOp_jacobian_is_self (HS := ascending) _ 0%nat LinOp x0 0).
  - vm_compute; reflexivity.
  - vm_compute; reflexivity.
  - vm_compute; reflexivity.
Defined.

(** The sum of a [ProxFunc] and a [LinFunc] of shape (1, 2). *)
Lemma ProxFunc_plus_LinFunc_raises_at_1_2 :
  exists h',
    __add__ (HS := ascending) 0%nat (VRef 1%nat)
      (store_of ((_ <- construct ProxFunc (shape 1 2) ;;
                  construct LinFunc (shape 1 2)) []))
    = Raise ValueError h'.
Proof.
  apply (ProxFunc_plus_LinFunc_raises (HS := ascending) _ 0%nat 1%nat
           (shape 1 2) (shape 1 2) 1 (Some 2)).
  - exact ascending_ok.
  - split; vm_compute; reflexivity.
  - split; vm_compute; reflexivity.
  - exists 1. split; [reflexivity |]. split; [lia | reflexivity].
  - exists 1. split; [reflexivity |]. split; [lia | reflexivity].
  - reflexivity.
Defined.

(** The squeeze of a [DiffFunc] of shape (1, 2). *)
Lemma squeeze_raises_at_DiffFunc :
  exists h',
    squeeze (HS := ascending) 0%nat
      (store_of (construct DiffFunc (shape 1 2) []))
    = Raise ValueError h'.
Proof.
  apply (squeeze_raises_on_DiffFunc_ProxFunc (HS := ascending) _ 0%nat
           DiffFunc (Some 2)).
  - exact ascending_ok.
  - split; vm_compute; reflexivity.
  - by left.
Defined.

(** The sum of two [UnitOp]s, of Lipschitz constant 1 each, is a
    [LinOp] whose Lipschitz constant is the infinity its constructor
    sets. *)
Lemma lipschitz_of_sum_is_infinite :
  result_of
    ((a <- construct UnitOp (shape 2 2) ;;
      b <- construct UnitOp (shape 2 2) ;;
      r <- __add__ (HS := ascending) a (VRef b) ;;
      u <- getattr a "_lipschitz" ;;
      v <- getattr r "_lipschitz" ;;
      c <- type_of r ;;
      ret (u, v, c)) [])
  = inr (VReal (Finite 1), VReal Infty, LinOp).
Proof. vm_compute; reflexivity. Qed.

(** The sum of the linear operators [x ↦ 2x] (adjoint [x ↦ 3x]) and
    [x ↦ 5x] (adjoint [x ↦ 7x]), called at [x0 = (1, 2)]. *)
Definition sum_of_LinOps (HS : HashSeed) (name : string) :
    Exception + Value :=
  result_of
    ((a <- operator LinOp (shape 2 2)
            [("apply", times 2); ("adjoint", times 3)] ;;
      b <- operator LinOp (shape 2 2)
            [("apply", times 5); ("adjoint", times 7)] ;;
      r <- __add__ a (VRef b) ;;
      call_method 10 r name [x0]) []).

(** Every capability of the sum calls the property iterated last:
    when [apply] comes last, [adjoint] adds the results of [apply]; when it
    comes first, [apply] adds the results of [adjoint]. *)
Lemma sum_calls_the_last_property :
  sum_of_LinOps ascending "apply" = inr (VArray (Vec [7%Q; 14%Q]))
  /\ sum_of_LinOps ascending "adjoint" = inr (VArray (Vec [7%Q; 14%Q]))
  /\ sum_of_LinOps descending "apply" = inr (VArray (Vec [10%Q; 20%Q]))
  /\ sum_of_LinOps descending "adjoint" = inr (VArray (Vec [10%Q; 20%Q])).
Proof. repeat split; vm_compute; reflexivity. Qed.

(** The product of a [ProxFunc] and a [UnitOp] is a [Func]: the
    result of [specialize] is dropped.  Its [prox] is bound, to
    [(x, tau) ↦ U.adjoint(f.prox(U.apply(x), tau))]: here
    [7 (3 (5 x))]. *)
Lemma ProxFunc_times_UnitOp_is_Func :
  result_of
    ((f <- operator (H := ascending) ProxFunc (shape 1 2)
            [("apply", times 2); ("prox", scaled_prox)] ;;
      u <- operator (H := ascending) UnitOp (shape 2 2)
            [("apply", times 5); ("adjoint", times 7)] ;;
      r <- __mul__ (HS := ascending) f (VRef u) ;;
      c <- type_of r ;;
      p <- call_method (HS := ascending) 10 r "prox"
             [x0; VReal (Finite 3)] ;;
      ret (c, p)) [])
  = inr (Func, VArray (Vec [105%Q; 210%Q])).
Proof. vm_compute; reflexivity. Qed.

(** [A.argshift(v).argshift(-v).apply(x0)] for [v = (10, 20)] and an
    operator [A] of class [c] whose [apply] is [x ↦ 2x]. *)
Definition shifted_back (HS : HashSeed) (c : PyClass) : Exception + Value :=
  result_of
    ((a <- operator c (shape 2 2) [("apply", times 2)] ;;
      r <- argshift a (VArray (Vec [10%Q; 20%Q])) ;;
      r <- argshift r (VArray (Vec [(-10)%Q; (-20)%Q])) ;;
      call_method 10 r "apply" [x0]) []).

(** [argshift] raises on a [ProxFunc]; shifting a [LinOp] there and
    back gives an operator whose [apply] returns [A] itself when [apply] is
    not the property iterated last, and a [DiffMap] one whose [apply]
    raises. *)
Lemma argshift_is_not_inverted :
  result_of
    ((a <- operator (H := ascending) ProxFunc (shape 1 2)
            [("apply", times 2); ("prox", scaled_prox)] ;;
      argshift (HS := ascending) a (VArray (Vec [10%Q; 20%Q]))) [])
  = inl ValueError
  /\ shifted_back ascending LinOp = inr (VRef 0%nat)
  /\ shifted_back ascending DiffMap = inl NotImplementedError
  /\ shifted_back descending LinOp = inr (VArray (Vec [2%Q; 4%Q])).
Proof. repeat split; vm_compute; reflexivity. Qed.

(** The search, iterating the kinds in reverse order. *)
Lemma kind_search_at_DiffMap :
  resolve_kind (HS := descending) (properties DiffMap) = DiffMap.
Proof.
  apply (kind_search_is_order_independent (HS := descending)).
  - exact descending_ok.
  - apply (bool_decide_unpack _); vm_compute; reflexivity.
  - reflexivity.
Defined.

Lemma shared_properties_of_DiffFunc_and_LinOp :
  exists Op, Op ∈ _base_operators
    /\ properties Op = (properties DiffFunc ∩ properties LinOp) ∖ {["prox"]}
    /\ forall Op', Op' ∈ _base_operators ->
         properties Op' = properties Op -> Op' = Op.
Proof.
  apply shared_properties_name_a_kind;
    apply (bool_decide_unpack _); vm_compute; reflexivity.
Defined.

Lemma Func_constructor_rejects_2 :
  (init Func (shape 2 2) = inl ValueError
   <-> issubclass Func Func = true /\ 2 > 1)
  /\ (~ (issubclass Func Func = true /\ 2 > 1) ->
      exists dict, init Func (shape 2 2) = inr dict).
Proof.
  apply (single_valued_constructor_rejects Func 2 (Some 2)).
  apply (bool_decide_unpack _); vm_compute; reflexivity.
Defined.

Lemma UnitOp_constants :
  match init UnitOp (shape 2 2) with
  | inr dict =>
      dict !! "_shape" = Some (VTuple (shape 2 2))
      /\ dict !! "_lipschitz"
         = Some (VReal (if issubclass UnitOp UnitOp
                           || issubclass UnitOp OrthProjOp
                        then real_of_Z 1 else np_infty))
      /\ dict !! "_diff_lipschitz"
         = (if issubclass UnitOp LinOp then Some (VReal (real_of_Z 0))
            else if issubclass UnitOp DiffMap then Some (VReal np_infty)
            else None)
  | inl _ => False
  end.
Proof.
  assert (match init UnitOp (shape 2 2) with
          | inr _ => true
          | inl _ => false
          end = true) as Hreturns by (vm_compute; reflexivity).
  revert Hreturns.
  destruct (init UnitOp (shape 2 2)) as [e | dict] eqn:Hinit.
  - intros Hreturns. discriminate Hreturns.
  - intros _.
    apply (constructor_sets_constants UnitOp (shape 2 2) dict);
      [vm_compute; reflexivity | exact Hinit].
Defined.

Lemma Map_rejects_agnostic_codomain :
  exists e, init Map (None, Some 2) = inl e.
Proof.
  apply constructor_rejects_agnostic_codomain. vm_compute; reflexivity.
Defined.

Lemma UnitOp_rejects_1_2 : init UnitOp (shape 1 2) = inl ValueError.
Proof.
  apply square_constructor_rejects.
  - apply (bool_decide_unpack _); vm_compute; reflexivity.
  - discriminate.
Defined.

Lemma squeeze_of_a_Map_2_2 :
  squeeze (HS := ascending) 0%nat (store_of (construct Map (shape 2 2) []))
  = Ok 0%nat (store_of (construct Map (shape 2 2) [])).
Proof.
  apply (squeeze_is_identity_off_codomain_1 (HS := ascending) _ 0%nat Map
           (shape 2 2)).
  - split; vm_compute; reflexivity.
  - vm_compute; reflexivity.
  - discriminate.
Defined.

Lemma squeeze_of_a_LinOp_1_2 :
  exists r h',
    squeeze (HS := ascending) 0%nat
      (store_of (construct LinOp (shape 1 2) [])) = Ok r h'
    /\ is_operator h' r (single_valued_counterpart LinOp) (Some 1, Some 2)
    /\ store_of (construct LinOp (shape 1 2) []) `prefix_of` h'.
Proof.
  apply (squeeze_casts_to_counterpart (HS := ascending)).
  - exact ascending_ok.
  - apply (bool_decide_unpack _); vm_compute; reflexivity.
  - discriminate.
  - discriminate.
  - split; vm_compute; reflexivity.
Defined.

Lemma ProjOp_to_the_minus_3 :
  __pow__ (HS := ascending) 0%nat (-3)
    (store_of (construct ProjOp (shape 2 2) []))
  = Ok 0%nat (store_of (construct ProjOp (shape 2 2) [])).
Proof.
  apply (ProjOp_pow_is_self (HS := ascending) _ 0%nat ProjOp).
  - vm_compute; reflexivity.
  - vm_compute; reflexivity.
  - discriminate.
Defined.

Lemma LinOp_to_the_minus_2 :
  __pow__ (HS := ascending) 0%nat (-2)
    (store_of (construct LinOp (shape 2 2) []))
  = Ok 0%nat (store_of (construct LinOp (shape 2 2) [])).
Proof.
  apply (pow_below_two_is_self (HS := ascending) _ 0%nat LinOp).
  - vm_compute; reflexivity.
  - vm_compute; reflexivity.
  - discriminate.
  - lia.
Defined.


(** C1, at two [DiffFunc]s of shape (1, 2). *)
Lemma sum_of_DiffFuncs_raises_at_1_2 :
  sum_table DiffFunc DiffFunc = Some DiffFunc
  /\ exists h',
       __add__ (HS := ascending) 0%nat (VRef 1%nat)
         (two_operators DiffFunc (shape 1 2))
       = Raise ValueError h'.
Proof.
  apply (sum_of_DiffFuncs_raises (HS := ascending) _ 0%nat 1%nat
           (shape 1 2) (shape 1 2) 1 (Some 2)).
  - exact ascending_ok.
  - split; vm_compute; reflexivity.
  - split; vm_compute; reflexivity.
  - exists 1. split; [reflexivity |]. split; [lia | reflexivity].
  - exists 1. split; [reflexivity |]. split; [lia | reflexivity].
  - reflexivity.
Defined.

End Examples.
